(** * flying_cow: the avoid-the-obstacles game of [first_game.py]

    A shallow embedding of the game script and the proofs of the
    properties its specification states.

    The script is written against PyGame.  PyGame itself is a library,
    not part of the repository; the parts of it that the script uses
    ([Rect], [Surface.get_rect], [sprite.Group], [Sprite.kill],
    [sprite.spritecollideany]) are modelled in the modules [Rect] and
    [Group] below after their documented behaviour.  Everything else
    follows [first_game.py] statement by statement. *)

From Stdlib Require Import ZArith Lia Bool List.
From stdpp Require Import base decidable option list gmap.

Local Open Scope Z_scope.

(** ** Constants *)

Definition SCREEN_WIDTH : Z := 800.
Definition SCREEN_HEIGHT : Z := 600.
Definition NEW_ENEMY_INTERVAL : Z := 250.
Definition FRAME_RATE : Z := 30.

(** ** pygame.Rect

    A rectangle is its top-left corner and its size, all integers.  The
    virtual attributes are derived from these four; assigning to one of
    them moves the rectangle and keeps its size. *)

Module Rect.

Record t : Type := mk { x : Z; y : Z; w : Z; h : Z }.

Definition left (r : t) : Z := x r.
Definition top (r : t) : Z := y r.
Definition right (r : t) : Z := x r + w r.
Definition bottom (r : t) : Z := y r + h r.
(** The centre is half the size away from the corner, the half
    rounded down. *)
Definition centerx (r : t) : Z := x r + w r / 2.
Definition centery (r : t) : Z := y r + h r / 2.

(** [r.move_ip(dx, dy)] *)
Definition move_ip (dx dy : Z) (r : t) : t :=
  mk (x r + dx) (y r + dy) (w r) (h r).

(** [r.left = v], [r.right = v], [r.top = v], [r.bottom = v] *)
Definition set_left (v : Z) (r : t) : t := mk v (y r) (w r) (h r).
Definition set_right (v : Z) (r : t) : t := mk (v - w r) (y r) (w r) (h r).
Definition set_top (v : Z) (r : t) : t := mk (x r) v (w r) (h r).
Definition set_bottom (v : Z) (r : t) : t := mk (x r) (v - h r) (w r) (h r).

(** [r.center = (cx, cy)] *)
Definition set_center (cx cy : Z) (r : t) : t :=
  mk (cx - w r / 2) (cy - h r / 2) (w r) (h r).

(** [a.colliderect(b)]: a rectangle of zero width or height collides
    with nothing; otherwise the spans are compared edge against edge,
    normalised with min and max so that a negative size is read as a
    span to the left (or upwards). *)
Definition colliderect (a b : t) : bool :=
  if (w a =? 0) || (h a =? 0) || (w b =? 0) || (h b =? 0) then false
  else
    (Z.min (x a) (x a + w a) <? Z.max (x b) (x b + w b)) &&
    (Z.min (y a) (y a + h a) <? Z.max (y b) (y b + h b)) &&
    (Z.max (x a) (x a + w a) >? Z.min (x b) (x b + w b)) &&
    (Z.max (y a) (y a + h a) >? Z.min (y b) (y b + h b)).



End Rect.

(** ** pygame.Surface

    Of a loaded image only its size matters here.  The image files are
    assets of the repository, not code; a surface is therefore a value
    the constructors receive. *)

Record Surface : Type := { surf_width : N; surf_height : N }.

(** [surface.get_rect()] *)
Definition get_rect (s : Surface) : Rect.t :=
  Rect.mk 0 0 (Z.of_N (surf_width s)) (Z.of_N (surf_height s)).

(** [surface.get_rect(center = (cx, cy))] *)
Definition get_rect_center (s : Surface) (cx cy : Z) : Rect.t :=
  Rect.set_center cx cy (get_rect s).

(** ** Keys and the held-key snapshot *)

Inductive Key : Type :=
| K_UP | K_DOWN | K_LEFT | K_RIGHT | K_ESCAPE
| K_other (code : Z).

(** What [pygame.key.get_pressed()] returns: a boolean per key. *)
Definition Keys : Type := Key -> bool.

Definition no_keys : Keys := fun _ => false.

(** The snapshot in which exactly the given direction keys are held. *)
Definition held (up down left right : bool) : Keys :=
  fun k =>
    match k with
    | K_UP => up | K_DOWN => down | K_LEFT => left | K_RIGHT => right
    | _ => false
    end.

(** ** The random source

    [random.randint(a, b)] returns an integer N with a <= N <= b.  The
    source is a stream of raw draws; a call consumes the first one. *)

Definition Random : Type := nat -> Z.

Definition randint (a b : Z) (r : Random) : Z * Random :=
  (a + r 0%nat mod (b - a + 1), fun n => r (S n)).

(** The source whose next draws yield the given values, then zeros. *)
Fixpoint draws (l : list Z) : Random :=
  fun n =>
    match l, n with
    | [], _ => 0
    | v :: _, O => v
    | _ :: l', S n' => draws l' n'
    end.

(** ** Sprites *)

Inductive Sprite : Type :=
| Player (surface : Surface) (rect : Rect.t)
| Enemy (surface : Surface) (rect : Rect.t) (speed : Z).

Definition rect_of (s : Sprite) : Rect.t :=
  match s with
  | Player _ r => r
  | Enemy _ r _ => r
  end.

Definition surface_of (s : Sprite) : Surface :=
  match s with
  | Player i _ => i
  | Enemy i _ _ => i
  end.

(** Class attributes: the declared shape of each sprite. *)
Definition Enemy_width : Z := 20.
Definition Enemy_height : Z := 10.
Definition Player_width : Z := 75.
Definition Player_height : Z := 25.

(** [Enemy.__init__]: [image] is the surface loaded from the enemy's
    sprite file. *)
Definition Enemy_init (image : Surface) (r : Random) : Sprite * Random :=
  let '(x, r) := randint (SCREEN_WIDTH + 20) (SCREEN_WIDTH + 100) r in
  let '(y, r) := randint 0 SCREEN_HEIGHT r in
  let rect := get_rect_center image x y in
  let '(speed, r) := randint 5 20 r in
  (Enemy image rect speed, r).

(** [Player.__init__] *)
Definition Player_init (image : Surface) : Sprite :=
  Player image (get_rect image).

(** [Player.update], as the function it is on the player's rectangle,
    in exact integer arithmetic.  pygame keeps the coordinates of a
    rectangle in 32-bit integers; [Player_update32] below is the method
    with that arithmetic, and the two agree as long as no coordinate
    leaves the 32-bit range, which is the case in every state of the
    loop. *)
Definition Player_update (pressed_keys : Keys) (rect : Rect.t) : Rect.t :=
  let x := 0 in
  let y := 0 in
  let y := if pressed_keys K_UP then -5 else y in
  let y := if pressed_keys K_DOWN then 5 else y in
  let x := if pressed_keys K_LEFT then -5 else x in
  let x := if pressed_keys K_RIGHT then 5 else x in
  let rect := Rect.move_ip x y rect in
  let rect :=
    if Rect.left rect <? 0 then Rect.set_left 0 rect else rect in
  let rect :=
    if Rect.right rect >? SCREEN_WIDTH
    then Rect.set_right SCREEN_WIDTH rect else rect in
  let rect :=
    if Rect.top rect <=? 0 then Rect.set_top 0 rect else rect in
  let rect :=
    if Rect.bottom rect >=? SCREEN_HEIGHT
    then Rect.set_bottom SCREEN_HEIGHT rect else rect in
  rect.

(** The movement part of [Enemy.update]: [self.rect.move_ip(-self.speed, 0)],
    in exact integer arithmetic. *)
Definition Enemy_move (rect : Rect.t) (speed : Z) : Rect.t :=
  Rect.move_ip (- speed) 0 rect.

(** ** pygame.Rect in 32 bits

    The four fields of a rectangle are C integers of 32 bits.  Sums are
    formed in that type and wrap around: [move_ip] adds to [x] and [y]
    in place, the attributes [right] and [bottom] are read as [x + w]
    and [y + h], and assigning to them subtracts the size. *)

Module Rect32.

Definition int_min : Z := -2147483648.
Definition int_max : Z := 2147483647.

(** The value a 32-bit signed integer takes for the exact result [z]. *)
Definition wrap (z : Z) : Z := (z - int_min) mod 4294967296 + int_min.

Definition representable (z : Z) : Prop := int_min <= z <= int_max.

Definition left (r : Rect.t) : Z := Rect.x r.
Definition top (r : Rect.t) : Z := Rect.y r.
Definition right (r : Rect.t) : Z := wrap (Rect.x r + Rect.w r).
Definition bottom (r : Rect.t) : Z := wrap (Rect.y r + Rect.h r).

Definition move_ip (dx dy : Z) (r : Rect.t) : Rect.t :=
  Rect.mk (wrap (Rect.x r + dx)) (wrap (Rect.y r + dy)) (Rect.w r) (Rect.h r).

Definition set_left (v : Z) (r : Rect.t) : Rect.t :=
  Rect.mk v (Rect.y r) (Rect.w r) (Rect.h r).
Definition set_right (v : Z) (r : Rect.t) : Rect.t :=
  Rect.mk (wrap (v - Rect.w r)) (Rect.y r) (Rect.w r) (Rect.h r).
Definition set_top (v : Z) (r : Rect.t) : Rect.t :=
  Rect.mk (Rect.x r) v (Rect.w r) (Rect.h r).
Definition set_bottom (v : Z) (r : Rect.t) : Rect.t :=
  Rect.mk (Rect.x r) (wrap (v - Rect.h r)) (Rect.w r) (Rect.h r).

(** The move by [(dx, dy)] and the clamps that follow it stay in the
    32-bit range: the moved corner, the moved far corner, the size and
    the corner a clamp may assign are all representable. *)
Definition move_fits (dx dy : Z) (r : Rect.t) : Prop :=
  representable (Rect.x r + dx) /\ representable (Rect.x r + dx + Rect.w r) /\
  representable (Rect.y r + dy) /\ representable (Rect.y r + dy + Rect.h r) /\
  representable (Rect.w r) /\ representable (Rect.h r) /\
  representable (SCREEN_WIDTH - Rect.w r) /\
  representable (SCREEN_HEIGHT - Rect.h r).

(** The rectangle as the 32-bit attributes show it lies on the screen. *)
Definition on_screen (r : Rect.t) : Prop :=
  (0 <= left r <= SCREEN_WIDTH) /\ (0 <= right r <= SCREEN_WIDTH) /\
  (0 <= top r <= SCREEN_HEIGHT) /\ (0 <= bottom r <= SCREEN_HEIGHT).

End Rect32.

(** [Player.update] with the arithmetic of the rectangle. *)
Definition Player_update32 (pressed_keys : Keys) (rect : Rect.t) : Rect.t :=
  let x := 0 in
  let y := 0 in
  let y := if pressed_keys K_UP then -5 else y in
  let y := if pressed_keys K_DOWN then 5 else y in
  let x := if pressed_keys K_LEFT then -5 else x in
  let x := if pressed_keys K_RIGHT then 5 else x in
  let rect := Rect32.move_ip x y rect in
  let rect :=
    if Rect32.left rect <? 0 then Rect32.set_left 0 rect else rect in
  let rect :=
    if Rect32.right rect >? SCREEN_WIDTH
    then Rect32.set_right SCREEN_WIDTH rect else rect in
  let rect :=
    if Rect32.top rect <=? 0 then Rect32.set_top 0 rect else rect in
  let rect :=
    if Rect32.bottom rect >=? SCREEN_HEIGHT
    then Rect32.set_bottom SCREEN_HEIGHT rect else rect in
  rect.

(** The movement part of [Enemy.update] with the arithmetic of the
    rectangle. *)
Definition Enemy_move32 (rect : Rect.t) (speed : Z) : Rect.t :=
  Rect32.move_ip (- speed) 0 rect.

(** ** Events *)

Inductive EventType : Type :=
| QUIT | KEYDOWN | KEYUP
| USEREVENT (n : nat).   (* [pygame.USEREVENT + n] *)

Definition ADD_ENEMY : EventType := USEREVENT 1.

(** An event of the queue.  Only keyboard events carry a [key]. *)
Inductive Event : Type :=
| quit_event
| key_event (down : bool) (key : Key)
| user_event (n : nat).

Definition type (event : Event) : EventType :=
  match event with
  | quit_event => QUIT
  | key_event true _ => KEYDOWN
  | key_event false _ => KEYUP
  | user_event n => USEREVENT n
  end.

Definition key (event : Event) : option Key :=
  match event with
  | key_event _ k => Some k
  | _ => None
  end.

#[global] Instance Key_eq_dec : EqDecision Key.
Proof. solve_decision. Defined.

#[global] Instance EventType_eq_dec : EqDecision EventType.
Proof. solve_decision. Defined.

(** The test of the event loop: window closed, or ESC pressed. *)
Definition is_quit (event : Event) : bool :=
  bool_decide (type event = QUIT) ||
  (bool_decide (type event = KEYDOWN) && bool_decide (key event = Some K_ESCAPE)).

Definition is_add_enemy (event : Event) : bool :=
  bool_decide (type event = ADD_ENEMY).

(** What one frame receives from the platform: the events that
    [pygame.event.get()] drains, each with the snapshot that the call of
    [pygame.key.get_pressed()] in its loop iteration returns. *)
Abbreviation FrameInput := (list (Event * Keys)).

(** ** Effects on the presentation layer, in the order they happen *)

Inductive Effect : Type :=
| set_timer (e : EventType) (millis : Z)
| blit_background
| blit (surface : Surface) (rect : Rect.t)
| collision_sound_play
| display_flip
| clock_tick (framerate : Z)
| time_sleep (secs : Z)
| music_stop
| mixer_quit.

(** ** Errors and results *)

Inductive Error : Type :=
| UnboundLocalError   (* a local variable read before any assignment *)
| TypeError           (* a method called with the wrong arguments *)
| InvalidReference.   (* the model only: an identity that denotes no object *)

Inductive Result (A : Type) : Type :=
| Ok (a : A)
| Raise (e : Error).
Arguments Ok {A} a.
Arguments Raise {A} e.

#[global] Instance Result_ret : MRet Result := fun A a => Ok a.
#[global] Instance Result_bind : MBind Result :=
  fun A B f m => match m with Ok a => f a | Raise e => Raise e end.

(** ** The state of the program

    Sprites are objects: a sprite is held by the groups (and by the
    variable [player]) by identity, and an update through one holder is
    seen through the others.  [heap] maps an identity to its object;
    a group is the list of the identities it holds, in insertion order
    and without repetition, as the keys of its dictionary are. *)

Record Game : Type := mkGame {
  heap : gmap nat Sprite;
  next_id : nat;
  enemies : list nat;
  all_sprites : list nat;
  running : bool;
  pressed_keys : option Keys;
  random : Random;
  trace : list Effect
}.

Definition set_heap (f : gmap nat Sprite -> gmap nat Sprite) (g : Game) : Game :=
  mkGame (f (heap g)) (next_id g) (enemies g) (all_sprites g) (running g)
         (pressed_keys g) (random g) (trace g).

Definition set_running (b : bool) (g : Game) : Game :=
  mkGame (heap g) (next_id g) (enemies g) (all_sprites g) b
         (pressed_keys g) (random g) (trace g).

Definition set_pressed_keys (k : Keys) (g : Game) : Game :=
  mkGame (heap g) (next_id g) (enemies g) (all_sprites g) (running g)
         (Some k) (random g) (trace g).

Definition emit (e : Effect) (g : Game) : Game :=
  mkGame (heap g) (next_id g) (enemies g) (all_sprites g) (running g)
         (pressed_keys g) (random g) (trace g ++ [e]).

(** ** pygame.sprite.Group and Sprite.kill *)

Module Group.

(** [group.add(sprite)]: a sprite already held is not added again. *)
Definition add (i : nat) (group : list nat) : list nat :=
  if decide (i ∈ group) then group else group ++ [i].

(** [group.remove(sprite)] *)
Definition remove (i : nat) (group : list nat) : list nat :=
  filter (fun j => j ≠ i) group.

(** [group.sprites()]: a new list of the sprites held, so that the
    group may change while the list is walked. *)
Definition sprites (group : list nat) : list nat := group.

End Group.

(** [sprite.kill()]: the sprite leaves every group that holds it.  The
    object itself stays. *)
Definition kill (i : nat) (g : Game) : Game :=
  mkGame (heap g) (next_id g) (Group.remove i (enemies g))
         (Group.remove i (all_sprites g)) (running g)
         (pressed_keys g) (random g) (trace g).

(** The variable [player] of [main]: the first object created. *)
Definition player : nat := 0%nat.

(** [Enemy.update] on the object [i]. *)
Definition Enemy_update (i : nat) (g : Game) : Result Game :=
  match heap g !! i with
  | Some (Enemy image rect speed) =>
      let rect := Enemy_move rect speed in
      let g := set_heap <[i := Enemy image rect speed]> g in
      Ok (if Rect.right rect <? 0 then kill i g else g)
  | Some (Player _ _) => Raise TypeError
  | None => Raise InvalidReference
  end.

(** [enemies.update()]: [update()] of every sprite of the group, over
    the list of sprites taken when the call starts.  A [Player] in the
    group would be called without its argument. *)
Fixpoint update_each (l : list nat) (g : Game) : Result Game :=
  match l with
  | [] => Ok g
  | i :: l' => g' ← Enemy_update i g; update_each l' g'
  end.

Definition enemies_update (g : Game) : Result Game :=
  update_each (Group.sprites (enemies g)) g.

(** [player.update(pressed_keys)] *)
Definition player_update (g : Game) : Result Game :=
  match pressed_keys g with
  | None => Raise UnboundLocalError
  | Some keys =>
      match heap g !! player with
      | Some (Player image rect) =>
          Ok (set_heap <[player := Player image (Player_update keys rect)]> g)
      | Some (Enemy _ _ _) => Raise TypeError
      | None => Raise InvalidReference
      end
  end.

(** [for sprite in all_sprites: screen.blit(sprite.surface, sprite.rect)] *)
Fixpoint blit_each (l : list nat) (g : Game) : Result Game :=
  match l with
  | [] => Ok g
  | i :: l' =>
      match heap g !! i with
      | Some s => blit_each l' (emit (blit (surface_of s) (rect_of s)) g)
      | None => Raise InvalidReference
      end
  end.

Definition render (g : Game) : Result Game :=
  blit_each (all_sprites g) (emit blit_background g).

(** [pygame.sprite.spritecollideany(sprite, group)]: the first sprite of
    the group whose rectangle collides with the given one, or [None]. *)
Fixpoint collideany (hp : gmap nat Sprite) (rect : Rect.t) (l : list nat)
  : Result (option nat) :=
  match l with
  | [] => Ok None
  | i :: l' =>
      match hp !! i with
      | Some s =>
          if Rect.colliderect rect (rect_of s) then Ok (Some i)
          else collideany hp rect l'
      | None => Raise InvalidReference
      end
  end.

Definition spritecollideany (i : nat) (group : list nat) (g : Game)
  : Result (option nat) :=
  match heap g !! i with
  | Some s => collideany (heap g) (rect_of s) group
  | None => Raise InvalidReference
  end.

(** The body of [if pygame.sprite.spritecollideany(player, enemies):]. *)
Definition on_collision (g : Game) : Game :=
  set_running false (emit collision_sound_play (kill player g)).

Definition check_collision (g : Game) : Result Game :=
  hit ← spritecollideany player (enemies g) g;
  match hit with
  | Some _ => Ok (on_collision g)
  | None => Ok g
  end.

(** [pygame.display.flip()] and [clock.tick(FRAME_RATE)] *)
Definition present (g : Game) : Game :=
  emit (clock_tick FRAME_RATE) (emit display_flip g).

(** What follows the loop. *)
Definition shutdown (g : Game) : Game :=
  emit mixer_quit (emit music_stop (emit (time_sleep 3) g)).

Section Main.

(** The surfaces loaded from the two sprite files. *)
Variables player_image enemy_image : Surface.

(** The body of [if event.type == ADD_ENEMY:]. *)
Definition add_enemy (g : Game) : Game :=
  let '(new_enemy, r) := Enemy_init enemy_image (random g) in
  let i := next_id g in
  mkGame (<[i := new_enemy]> (heap g)) (S i)
         (Group.add i (enemies g)) (Group.add i (all_sprites g))
         (running g) (pressed_keys g) r (trace g).

(** One iteration of [for event in pygame.event.get():]. *)
Definition handle_event (g : Game) (input : Event * Keys) : Game :=
  let '(event, keys) := input in
  let g := if is_quit event then set_running false g else g in
  let g := if is_add_enemy event then add_enemy g else g in
  set_pressed_keys keys g.

Definition handle_events (events : FrameInput) (g : Game) : Game :=
  fold_left handle_event events g.

(** One frame: the body of [while running:]. *)
Definition frame (events : FrameInput) (g : Game) : Result Game :=
  let g := handle_events events g in
  g ← player_update g;
  g ← enemies_update g;
  g ← render g;
  g ← check_collision g;
  Ok (present g).

(** The state of [main] when it reaches the loop. *)
Definition main_init (r : Random) : Game :=
  mkGame {[ player := Player_init player_image ]} 1 []
         (Group.add player []) true None r
         [set_timer ADD_ENEMY NEW_ENEMY_INTERVAL].

(** How a run over a finite input ends: [main] returned, or the input
    is used up with the loop still running, or an exception was
    raised. *)
Inductive Outcome : Type :=
| Returned (g : Game)
| Looping (g : Game)
| Failed (e : Error).

(** [while running: ...] followed by the shutdown, over the inputs of
    the coming frames. *)
Fixpoint main_loop (inputs : list FrameInput) (g : Game) : Outcome :=
  if running g then
    match inputs with
    | [] => Looping g
    | events :: inputs' =>
        match frame events g with
        | Ok g' => main_loop inputs' g'
        | Raise e => Failed e
        end
    end
  else Returned (shutdown g).

Definition main (r : Random) (inputs : list FrameInput) : Outcome :=
  main_loop inputs (main_init r).

End Main.

(** ** The specification's vocabulary *)

(** The player's update as the specification words it: the displacement
    is derived from the four flags, later flags overwriting earlier
    ones, and then each edge is clamped if it violates its bound, in the
    order left, right, top, bottom. *)
Definition displacement (k : Keys) : Z * Z :=
  (if k K_RIGHT then 5 else if k K_LEFT then -5 else 0,
   if k K_DOWN then 5 else if k K_UP then -5 else 0).

Definition clamp_left (r : Rect.t) : Rect.t :=
  if Rect.left r <? 0 then Rect.set_left 0 r else r.
Definition clamp_right (r : Rect.t) : Rect.t :=
  if SCREEN_WIDTH <? Rect.right r then Rect.set_right SCREEN_WIDTH r else r.
Definition clamp_top (r : Rect.t) : Rect.t :=
  if Rect.top r <? 0 then Rect.set_top 0 r else r.
Definition clamp_bottom (r : Rect.t) : Rect.t :=
  if SCREEN_HEIGHT <? Rect.bottom r then Rect.set_bottom SCREEN_HEIGHT r else r.

Definition Player_update_spec (k : Keys) (r : Rect.t) : Rect.t :=
  let '(dx, dy) := displacement k in
  clamp_bottom (clamp_top (clamp_right (clamp_left (Rect.move_ip dx dy r)))).

(** A rectangle that lies on the screen. *)
Definition on_screen (r : Rect.t) : Prop :=
  (0 <= Rect.left r <= SCREEN_WIDTH) /\ (0 <= Rect.right r <= SCREEN_WIDTH) /\
  (0 <= Rect.top r <= SCREEN_HEIGHT) /\ (0 <= Rect.bottom r <= SCREEN_HEIGHT).

(** [k] calls of [enemies.update()] in a row. *)
Fixpoint update_passes (k : nat) (g : Game) : Result Game :=
  match k with
  | O => Ok g
  | S k' => g' ← enemies_update g; update_passes k' g'
  end.

Definition is_Enemy (o : option Sprite) : bool :=
  match o with
  | Some (Enemy _ _ _) => true
  | _ => false
  end.

Definition is_Player (o : option Sprite) : bool :=
  match o with
  | Some (Player _ _) => true
  | _ => false
  end.

(** The obstacle set is a group of enemies: no identity twice, every
    identity an [Enemy] object. *)
Definition enemies_ok (g : Game) : Prop :=
  NoDup (enemies g) /\ Forall (fun i => is_Enemy (heap g !! i) = true) (enemies g).

(** The registry invariant of the specification: an obstacle of the
    obstacle set is in the render set, the render set holds nothing but
    the player and the obstacles of the obstacle set (an obstacle leaves
    both sets or neither), and the player is not in the obstacle set. *)
Definition registry_inv (g : Game) : Prop :=
  (forall i, i ∈ enemies g -> i ∈ all_sprites g) /\
  (forall i, i ∈ all_sprites g -> i ≠ player -> i ∈ enemies g) /\
  (player ∉ enemies g).

(** Every obstacle of the obstacle set is an enemy that its next move
    leaves with a right edge that is not negative. *)
Definition enemies_stay (hp : gmap nat Sprite) (l : list nat) : Prop :=
  forall i, i ∈ l ->
    exists image rect s,
      hp !! i = Some (Enemy image rect s) /\ 0 <= Rect.right rect - s.

(** The invariant that carries it through the loop. *)
Record wf (g : Game) : Prop := mk_wf {
  wf_player : is_Player (heap g !! player) = true;
  wf_enemies : enemies_ok g;
  wf_sub : forall i, i ∈ enemies g -> i ∈ all_sprites g;
  wf_all : forall i, i ∈ all_sprites g -> i = player \/ i ∈ enemies g;
  wf_nodup : NoDup (all_sprites g);
  wf_fresh : forall i, (next_id g <= i)%nat -> heap g !! i = None;
  wf_alive : running g = true -> player ∈ all_sprites g
}.

Section Loop.

Variables player_image enemy_image : Surface.

(** The part of a frame that precedes the collision test. *)
Definition frame_updates (events : FrameInput) (g : Game) : Result Game :=
  g ← player_update (handle_events enemy_image events g);
  g ← enemies_update g;
  render g.

(** The loop body in steps: the handling of one event (lines 317 to
    332), the player's update, one enemy's [update()], the rendering,
    the collision test with its branch (lines 351 to 359), and the flip
    with the tick.  The states between the statements inside a step are
    those of [passes] below. *)
Inductive step : Game -> Game -> Prop :=
| step_event g input : step g (handle_event enemy_image g input)
| step_player g g' : player_update g = Ok g' -> step g g'
| step_enemy i g g' : Enemy_update i g = Ok g' -> step g g'
| step_render g g' : render g = Ok g' -> step g g'
| step_collision g g' : check_collision g = Ok g' -> step g g'
| step_present g : step g (present g).

(** The states at the ends of these steps, and possibly more: the
    steps are not bound to their place in the body. *)
Inductive reachable : Game -> Prop :=
| reachable_init r : reachable (main_init player_image r)
| reachable_step g g' : reachable g -> step g g' -> reachable g'.

(** The number of spawn-timer ticks among the events of a frame. *)
Definition ticks (events : FrameInput) : nat :=
  length (filter (fun input => is_add_enemy (fst input) = true) events).

Definition has_quit (events : FrameInput) : Prop :=
  Exists (fun input => is_quit (fst input) = true) events.

(** Several frames in a row, whatever [running] says. *)
Fixpoint run_frames (inputs : list FrameInput) (g : Game) : Result Game :=
  match inputs with
  | [] => Ok g
  | events :: inputs' => g' ← frame enemy_image events g; run_frames inputs' g'
  end.

End Loop.

(** The state with further effects recorded. *)
Definition add_trace (tr : list Effect) (g : Game) : Game :=
  mkGame (heap g) (next_id g) (enemies g) (all_sprites g) (running g)
         (pressed_keys g) (random g) (trace g ++ tr).

(** ** Concrete inputs

    Sprite images of the declared shapes, and the state in which the
    first obstacle has just been spawned from the draws 0, 0, 0: at
    (810, -5), with speed 5. *)
Definition player_75x25 : Surface := Build_Surface 75 25.
Definition enemy_20x10 : Surface := Build_Surface 20 10.

Definition spawned : Game :=
  handle_events enemy_20x10 [(user_event 1, no_keys)]
    (main_init player_75x25 (draws [0; 0; 0])).

(** A run towards a collision: the obstacle is spawned with its centre
    at (820, 10) and speed 20 in the first frame; no key is held; 35
    frames without events follow. *)
Definition approach : list FrameInput :=
  [(user_event 1, no_keys)] :: repeat [] 35.

Definition before_hit : Game :=
  match run_frames enemy_20x10 approach
          (main_init player_75x25 (draws [0; 10; 15])) with
  | Ok g => g
  | Raise _ => main_init player_75x25 (draws [0; 10; 15])
  end.

Definition at_hit : Game :=
  match frame_updates enemy_20x10 [] before_hit with
  | Ok g => g
  | Raise _ => before_hit
  end.

(** ** Further vocabulary for the loop *)

(** The blits of the sprites of a list, in its order. *)
Definition blits (hp : gmap nat Sprite) (l : list nat) : list Effect :=
  omap (fun i => (fun s => blit (surface_of s) (rect_of s)) <$> hp !! i) l.

(** The player is an object of the given image, its rectangle of the
    image's size and on the screen. *)
Definition player_on_screen (image : Surface) (g : Game) : Prop :=
  exists rect,
    heap g !! player = Some (Player image rect) /\
    on_screen rect /\
    Rect.w rect = Z.of_N (surf_width image) /\
    Rect.h rect = Z.of_N (surf_height image).

(** An enemy as the loop keeps it: of the given image and its size, its
    speed in [5, 20], its centre no further right than where obstacles
    are spawned and at a height of the screen, its right edge not
    negative. *)
Definition enemy_in_lane (image : Surface) (o : option Sprite) : Prop :=
  exists rect s,
    o = Some (Enemy image rect s) /\
    5 <= s <= 20 /\
    0 <= Rect.right rect /\
    Rect.centerx rect <= SCREEN_WIDTH + 100 /\
    0 <= Rect.centery rect <= SCREEN_HEIGHT /\
    Rect.w rect = Z.of_N (surf_width image) /\
    Rect.h rect = Z.of_N (surf_height image).

(** No quit-equivalent event among the events of a frame. *)
Definition no_quit (events : FrameInput) : bool :=
  forallb (fun input => negb (is_quit (fst input))) events.

(** ** The loop, statement by statement

    The three statements of the spawn branch, one by one. *)

(** [new_enemy = Enemy()]: the object is created and held by no group. *)
Definition new_Enemy (enemy_image : Surface) (g : Game) : Game :=
  let '(new_enemy, r) := Enemy_init enemy_image (random g) in
  mkGame (<[next_id g := new_enemy]> (heap g)) (S (next_id g))
         (enemies g) (all_sprites g) (running g) (pressed_keys g) r (trace g).

(** [enemies.add(new_enemy)] *)
Definition enemies_add (i : nat) (g : Game) : Game :=
  mkGame (heap g) (next_id g) (Group.add i (enemies g)) (all_sprites g)
         (running g) (pressed_keys g) (random g) (trace g).

(** [all_sprites.add(new_enemy)] *)
Definition all_sprites_add (i : nat) (g : Game) : Game :=
  mkGame (heap g) (next_id g) (enemies g) (Group.add i (all_sprites g))
         (running g) (pressed_keys g) (random g) (trace g).

(** Where [main] stands: the statement it executes next.  A point
    inside the event loop carries the snapshot that the call of
    [get_pressed] of the iteration will return, a point inside the spawn
    branch the new enemy, a point inside [enemies.update()] or inside
    the blit loop the sprites still to visit. *)
Inductive Point : Type :=
| at_while                                    (* line 308 *)
| at_events                                   (* line 314: next event, or none *)
| at_add_test (event : Event) (keys : Keys)   (* line 325 *)
| at_enemies_add (new_enemy : nat) (keys : Keys)       (* line 328 *)
| at_all_sprites_add (new_enemy : nat) (keys : Keys)   (* line 329 *)
| at_get_pressed (keys : Keys)                (* line 332 *)
| at_enemies_update                           (* line 338 *)
| in_enemies_update (rest : list nat)         (* inside line 338 *)
| at_blit_background                          (* line 344 *)
| in_blits (rest : list nat)                  (* lines 347, 348 *)
| at_collision_test                           (* line 351 *)
| at_collision_sound                          (* line 357 *)
| at_running_False                            (* line 359 *)
| at_flip                                     (* line 362 *)
| at_tick                                     (* line 372 *)
| at_sleep                                    (* line 374 *)
| at_music_stop                               (* line 376 *)
| at_mixer_quit                               (* line 377 *)
| at_return.

Section Statements.

Variables player_image enemy_image : Surface.

(** One statement of [main]: from a point and a state to the next
    point and state.  The events and snapshots are the platform's. *)
Inductive stmt : Point -> Game -> Point -> Game -> Prop :=
| stmt_while_true g :
    running g = true -> stmt at_while g at_events g
| stmt_while_false g :
    running g = false -> stmt at_while g at_sleep g
| stmt_quit_test g event keys :                                   (* 317 to 322 *)
    stmt at_events g
         (at_add_test event keys)
         (if is_quit event then set_running false g else g)
| stmt_no_add g event keys :                                      (* 325 *)
    is_add_enemy event = false ->
    stmt (at_add_test event keys) g (at_get_pressed keys) g
| stmt_new_Enemy g event keys :                                   (* 325, 327 *)
    is_add_enemy event = true ->
    stmt (at_add_test event keys) g
         (at_enemies_add (next_id g) keys) (new_Enemy enemy_image g)
| stmt_enemies_add g i keys :                                     (* 328 *)
    stmt (at_enemies_add i keys) g
         (at_all_sprites_add i keys) (enemies_add i g)
| stmt_all_sprites_add g i keys :                                 (* 329 *)
    stmt (at_all_sprites_add i keys) g
         (at_get_pressed keys) (all_sprites_add i g)
| stmt_get_pressed g keys :                                       (* 332 *)
    stmt (at_get_pressed keys) g at_events (set_pressed_keys keys g)
| stmt_player_update g g' :                                       (* 335 *)
    player_update g = Ok g' -> stmt at_events g at_enemies_update g'
| stmt_enemies_update g :                                         (* 338 *)
    stmt at_enemies_update g
         (in_enemies_update (Group.sprites (enemies g))) g
| stmt_Enemy_update g g' i rest :
    Enemy_update i g = Ok g' ->
    stmt (in_enemies_update (i :: rest)) g (in_enemies_update rest) g'
| stmt_enemies_updated g :
    stmt (in_enemies_update []) g at_blit_background g
| stmt_blit_background g :                                        (* 344 *)
    stmt at_blit_background g
         (in_blits (all_sprites g)) (emit blit_background g)
| stmt_blit g i s rest :                                          (* 348 *)
    heap g !! i = Some s ->
    stmt (in_blits (i :: rest)) g
         (in_blits rest) (emit (blit (surface_of s) (rect_of s)) g)
| stmt_blits_done g :
    stmt (in_blits []) g at_collision_test g
| stmt_kill g j :                                                 (* 351, 354 *)
    spritecollideany player (enemies g) g = Ok (Some j) ->
    stmt at_collision_test g at_collision_sound (kill player g)
| stmt_no_collision g :                                           (* 351 *)
    spritecollideany player (enemies g) g = Ok None ->
    stmt at_collision_test g at_flip g
| stmt_collision_sound g :                                        (* 357 *)
    stmt at_collision_sound g at_running_False (emit collision_sound_play g)
| stmt_running_False g :                                          (* 359 *)
    stmt at_running_False g at_flip (set_running false g)
| stmt_flip g :                                                   (* 362 *)
    stmt at_flip g at_tick (emit display_flip g)
| stmt_tick g :                                                   (* 372 *)
    stmt at_tick g at_while (emit (clock_tick FRAME_RATE) g)
| stmt_sleep g :                                                  (* 374 *)
    stmt at_sleep g at_music_stop (emit (time_sleep 3) g)
| stmt_music_stop g :                                             (* 376 *)
    stmt at_music_stop g at_mixer_quit (emit music_stop g)
| stmt_mixer_quit g :                                             (* 377 *)
    stmt at_mixer_quit g at_return (emit mixer_quit g).

(** The points and states [main] passes through. *)
Inductive passes : Point -> Game -> Prop :=
| passes_init r : passes at_while (main_init player_image r)
| passes_stmt pc g pc' g' : passes pc g -> stmt pc g pc' g' -> passes pc' g'.

End Statements.

(** What holds of the state at a point: the invariant of the loop,
    except inside the spawn branch, where the new enemy is held by the
    obstacle set only, and inside the collision branch, where the player
    has left the render set and [running] has not yet been cleared. *)
Definition wf_at (pc : Point) (g : Game) : Prop :=
  match pc with
  | at_all_sprites_add i _ =>
      exists g0, wf g0 /\ is_Enemy (heap g0 !! i) = true /\
                 (i ∉ enemies g0) /\ (i ∉ all_sprites g0) /\ g = enemies_add i g0
  | at_enemies_add i _ =>
      wf g /\ is_Enemy (heap g !! i) = true /\
      (i ∉ enemies g) /\ (i ∉ all_sprites g)
  | at_collision_sound => exists g0, wf g0 /\ g = kill player g0
  | at_running_False =>
      exists g0, wf g0 /\ g = emit collision_sound_play (kill player g0)
  | _ => wf g
  end.

(** The first state in which the registry invariant fails: the first
    obstacle is in the obstacle set and not yet in the render set. *)
Definition between_adds : Game :=
  enemies_add 1 (new_Enemy enemy_20x10 (main_init player_75x25 (draws [0; 0; 0]))).

(** What is left of the registry invariant between the two [add]s of
    the spawn branch: the new obstacle [i] is in the obstacle set and
    is the one obstacle that the render set lacks. *)
Definition registry_but (i : nat) (g : Game) : Prop :=
  i ∈ enemies g /\ (i ∉ all_sprites g) /\
  (forall j, j ∈ enemies g -> j ≠ i -> j ∈ all_sprites g) /\
  (forall j, j ∈ all_sprites g -> j ≠ player -> j ∈ enemies g) /\
  (player ∉ enemies g).

(** The registry at a point of [main]. *)
Definition registry_at (pc : Point) (g : Game) : Prop :=
  match pc with
  | at_all_sprites_add i _ => registry_but i g
  | _ => registry_inv g
  end.


(** * Rectangles *)

Section RectFacts.

Implicit Types r a b : Rect.t.

Lemma move_ip_size dx dy r :
  Rect.w (Rect.move_ip dx dy r) = Rect.w r /\
  Rect.h (Rect.move_ip dx dy r) = Rect.h r.
Proof. split; reflexivity. Qed.

Lemma move_ip_move_ip dx dy dx' dy' r :
  Rect.move_ip dx' dy' (Rect.move_ip dx dy r) =
  Rect.move_ip (dx + dx') (dy + dy') r.
Proof. unfold Rect.move_ip; simpl. f_equal; lia. Qed.



End RectFacts.

(** ** The collision test of the loop *)





(** * The player *)

Lemma clamp_right_gt (r : Rect.t) :
  (if Rect.right r >? SCREEN_WIDTH then Rect.set_right SCREEN_WIDTH r else r)
  = clamp_right r.
Proof. unfold clamp_right. rewrite Z.gtb_ltb. reflexivity. Qed.

(** The comparisons of the top and bottom edges are not strict in the
    code; an edge that sits on its bound is set to where it is. *)
Lemma clamp_top_le (r : Rect.t) :
  (if Rect.top r <=? 0 then Rect.set_top 0 r else r) = clamp_top r.
Proof.
  unfold clamp_top, Rect.top, Rect.set_top. destruct r as [x y w h]; simpl.
  destruct (y <=? 0) eqn:E1, (y <? 0) eqn:E2; try reflexivity.
  - apply Z.leb_le in E1. apply Z.ltb_ge in E2. f_equal. lia.
  - apply Z.leb_gt in E1. apply Z.ltb_lt in E2. lia.
Qed.

Lemma clamp_bottom_ge (r : Rect.t) :
  (if Rect.bottom r >=? SCREEN_HEIGHT then Rect.set_bottom SCREEN_HEIGHT r else r)
  = clamp_bottom r.
Proof.
  unfold clamp_bottom, Rect.bottom, Rect.set_bottom.
  destruct r as [x y w h]; simpl. rewrite Z.geb_leb.
  destruct (SCREEN_HEIGHT <=? y + h) eqn:E1, (SCREEN_HEIGHT <? y + h) eqn:E2;
    try reflexivity.
  - apply Z.leb_le in E1. apply Z.ltb_ge in E2. f_equal. lia.
  - apply Z.leb_gt in E1. apply Z.ltb_lt in E2. lia.
Qed.

Lemma Player_update_displacement (k : Keys) (r : Rect.t) :
  Player_update k r = Player_update_spec k r.
Proof.
  unfold Player_update, Player_update_spec. cbv zeta.
  rewrite clamp_bottom_ge, clamp_top_le, clamp_right_gt.
  fold (clamp_left
          (Rect.move_ip
             (if k K_RIGHT then 5 else if k K_LEFT then -5 else 0)
             (if k K_DOWN then 5 else if k K_UP then -5 else 0) r)).
  unfold displacement.
  destruct (k K_UP), (k K_DOWN), (k K_LEFT), (k K_RIGHT); reflexivity.
Qed.

Lemma Player_update_size (k : Keys) (r : Rect.t) :
  Rect.w (Player_update k r) = Rect.w r /\ Rect.h (Player_update k r) = Rect.h r.
Proof.
  rewrite Player_update_displacement. unfold Player_update_spec.
  destruct (displacement k) as [dx dy].
  unfold clamp_bottom, clamp_top, clamp_right, clamp_left.
  repeat match goal with
  | |- context [if ?c then _ else _] => destruct c
  end; split; reflexivity.
Qed.

(** A rectangle no larger than the screen is on the screen once its four
    edges have been clamped in the order left, right, top, bottom. *)
Lemma clamped_on_screen (r : Rect.t) :
  0 <= Rect.w r <= SCREEN_WIDTH -> 0 <= Rect.h r <= SCREEN_HEIGHT ->
  on_screen (clamp_bottom (clamp_top (clamp_right (clamp_left r)))).
Proof.
  intros Hw Hh. destruct r as [x y w h]; simpl in *.
  unfold clamp_bottom, clamp_top, clamp_right, clamp_left, on_screen,
    Rect.left, Rect.right, Rect.top, Rect.bottom,
    Rect.set_left, Rect.set_right, Rect.set_top, Rect.set_bottom; simpl.
  destruct (x <? 0) eqn:E1; simpl;
    [apply Z.ltb_lt in E1 | apply Z.ltb_ge in E1].
  all: match goal with
       | |- context [SCREEN_WIDTH <? ?a] => destruct (SCREEN_WIDTH <? a) eqn:E2
       end; simpl; [apply Z.ltb_lt in E2 | apply Z.ltb_ge in E2].
  all: destruct (y <? 0) eqn:E3; simpl;
    [apply Z.ltb_lt in E3 | apply Z.ltb_ge in E3].
  all: match goal with
       | |- context [SCREEN_HEIGHT <? ?a] => destruct (SCREEN_HEIGHT <? a) eqn:E4
       end; simpl; [apply Z.ltb_lt in E4 | apply Z.ltb_ge in E4].
  all: lia.
Qed.

(** In exact arithmetic a rectangle of the player's dimensions ends on
    the screen wherever it starts. *)
Lemma Player_update_exact_on_screen (k : Keys) (r : Rect.t) :
  Rect.w r = Player_width -> Rect.h r = Player_height ->
  on_screen (Player_update k r) /\
  Player_update k r =
    clamp_bottom (clamp_top (clamp_right (clamp_left
      (Rect.move_ip (fst (displacement k)) (snd (displacement k)) r)))) /\
  Rect.w (Player_update k r) = Player_width /\
  Rect.h (Player_update k r) = Player_height.
Proof.
  intros Hw Hh.
  pose proof (Player_update_size k r) as [Sw Sh].
  rewrite Sw, Sh, Hw, Hh.
  assert (E : Player_update k r =
    clamp_bottom (clamp_top (clamp_right (clamp_left
      (Rect.move_ip (fst (displacement k)) (snd (displacement k)) r))))).
  { rewrite Player_update_displacement. unfold Player_update_spec.
    destruct (displacement k); reflexivity. }
  split; [| split; [exact E | split; reflexivity]].
  rewrite E. apply clamped_on_screen.
  - destruct (move_ip_size (fst (displacement k)) (snd (displacement k)) r) as [-> _].
    rewrite Hw. unfold Player_width, SCREEN_WIDTH. lia.
  - destruct (move_ip_size (fst (displacement k)) (snd (displacement k)) r) as [_ ->].
    rewrite Hh. unfold Player_height, SCREEN_HEIGHT. lia.
Qed.

(** ** The 32-bit arithmetic of the rectangle *)

Lemma wrap_representable (z : Z) :
  Rect32.representable z -> Rect32.wrap z = z.
Proof.
  unfold Rect32.representable, Rect32.wrap, Rect32.int_min, Rect32.int_max.
  intros H. rewrite Z.mod_small; lia.
Qed.

Lemma wrap_is_representable (z : Z) : Rect32.representable (Rect32.wrap z).
Proof.
  unfold Rect32.representable, Rect32.wrap, Rect32.int_min, Rect32.int_max.
  pose proof (Z.mod_pos_bound (z - -2147483648) 4294967296 ltac:(lia)). lia.
Qed.

Ltac unwrap :=
  repeat match goal with
  | |- context [Rect32.wrap ?z] =>
      rewrite (wrap_representable z)
        by (unfold Rect32.representable, Rect32.int_min, Rect32.int_max,
              SCREEN_WIDTH, SCREEN_HEIGHT in *; lia)
  end.

(** The move and the clamps of [Player.update] in 32 bits, for any
    displacement: as long as nothing leaves the range, they are the
    exact ones. *)
Lemma clamps32_exact (dx dy : Z) (r : Rect.t) :
  Rect32.move_fits dx dy r ->
  (let rect := Rect32.move_ip dx dy r in
   let rect :=
     if Rect32.left rect <? 0 then Rect32.set_left 0 rect else rect in
   let rect :=
     if Rect32.right rect >? SCREEN_WIDTH
     then Rect32.set_right SCREEN_WIDTH rect else rect in
   let rect :=
     if Rect32.top rect <=? 0 then Rect32.set_top 0 rect else rect in
   let rect :=
     if Rect32.bottom rect >=? SCREEN_HEIGHT
     then Rect32.set_bottom SCREEN_HEIGHT rect else rect in
   rect)
  =
  (let rect := Rect.move_ip dx dy r in
   let rect :=
     if Rect.left rect <? 0 then Rect.set_left 0 rect else rect in
   let rect :=
     if Rect.right rect >? SCREEN_WIDTH
     then Rect.set_right SCREEN_WIDTH rect else rect in
   let rect :=
     if Rect.top rect <=? 0 then Rect.set_top 0 rect else rect in
   let rect :=
     if Rect.bottom rect >=? SCREEN_HEIGHT
     then Rect.set_bottom SCREEN_HEIGHT rect else rect in
   rect).
Proof.
  intros (F1 & F2 & F3 & F4 & F5 & F6 & F7 & F8).
  destruct r as [x y w h]; simpl in *.
  cbv zeta.
  unfold Rect32.move_ip, Rect32.left, Rect32.right, Rect32.top, Rect32.bottom,
    Rect32.set_left, Rect32.set_right, Rect32.set_top, Rect32.set_bottom,
    Rect.move_ip, Rect.left, Rect.right, Rect.top, Rect.bottom,
    Rect.set_left, Rect.set_right, Rect.set_top, Rect.set_bottom; simpl.
  unwrap.
  destruct (x + dx <? 0) eqn:E1; simpl; unwrap.
  all: match goal with
       | |- context [?a >? SCREEN_WIDTH] => destruct (a >? SCREEN_WIDTH) eqn:E2
       end; simpl; unwrap.
  all: destruct (y + dy <=? 0) eqn:E3; simpl; unwrap.
  all: reflexivity.
Qed.

(** [Player.update] in 32 bits is the exact one as long as the move and
    the clamps stay in the range. *)
Lemma Player_update32_exact (k : Keys) (r : Rect.t) :
  Rect32.move_fits (fst (displacement k)) (snd (displacement k)) r ->
  Player_update32 k r = Player_update k r.
Proof.
  intros H. unfold Player_update32, Player_update. cbv zeta.
  unfold displacement in H. simpl in H.
  exact (clamps32_exact _ _ r H).
Qed.

Lemma move_fits_player (k : Keys) (r : Rect.t) :
  Rect.w r = Player_width -> Rect.h r = Player_height ->
  Rect32.representable (Rect.x r + fst (displacement k)) ->
  Rect32.representable (Rect.x r + fst (displacement k) + Rect.w r) ->
  Rect32.representable (Rect.y r + snd (displacement k)) ->
  Rect32.representable (Rect.y r + snd (displacement k) + Rect.h r) ->
  Rect32.move_fits (fst (displacement k)) (snd (displacement k)) r.
Proof.
  intros Hw Hh F1 F2 F3 F4. unfold Rect32.move_fits.
  repeat split; try (apply F1 || apply F2 || apply F3 || apply F4);
    rewrite ?Hw, ?Hh;
    unfold Player_width, Player_height, SCREEN_WIDTH, SCREEN_HEIGHT,
      Rect32.int_min, Rect32.int_max; lia.
Qed.

Lemma on_screen32 (r : Rect.t) : on_screen r -> Rect32.on_screen r.
Proof.
  unfold on_screen, Rect32.on_screen, Rect32.left, Rect32.top, Rect32.right,
    Rect32.bottom, Rect.left, Rect.top, Rect.right, Rect.bottom.
  intros (H1 & H2 & H3 & H4).
  rewrite !wrap_representable
    by (unfold Rect32.representable, Rect32.int_min, Rect32.int_max,
          SCREEN_WIDTH, SCREEN_HEIGHT in *; lia).
  auto.
Qed.

(** C2, as the code has it.  Whatever keys are held (in particular for
    each of the 16 assignments of the four direction keys), for every
    starting rectangle of the player's dimensions that the move by the
    displacement of the keys leaves within the 32-bit range of the
    rectangle's coordinates, after [Player.update] the left and the
    right edge lie in [0, SCREEN_WIDTH] and the top and the bottom edge
    in [0, SCREEN_HEIGHT]; the update is the move followed by the
    clamping of the edges in the order left, right, top, bottom, and it
    keeps the size. *)
Theorem Player_update_on_screen (k : Keys) (r : Rect.t) :
  Rect.w r = Player_width -> Rect.h r = Player_height ->
  Rect32.representable (Rect.x r + fst (displacement k)) ->
  Rect32.representable (Rect.x r + fst (displacement k) + Rect.w r) ->
  Rect32.representable (Rect.y r + snd (displacement k)) ->
  Rect32.representable (Rect.y r + snd (displacement k) + Rect.h r) ->
  Rect32.on_screen (Player_update32 k r) /\
  on_screen (Player_update32 k r) /\
  Player_update32 k r =
    clamp_bottom (clamp_top (clamp_right (clamp_left
      (Rect.move_ip (fst (displacement k)) (snd (displacement k)) r)))) /\
  Rect.w (Player_update32 k r) = Player_width /\
  Rect.h (Player_update32 k r) = Player_height.
Proof.
  intros Hw Hh F1 F2 F3 F4.
  rewrite (Player_update32_exact k r (move_fits_player k r Hw Hh F1 F2 F3 F4)).
  destruct (Player_update_exact_on_screen k r Hw Hh) as (Hon & E & Sw & Sh).
  split; [exact (on_screen32 _ Hon) |]. auto.
Qed.

Lemma Player_update_on_screen_witness :
  Rect32.on_screen
    (Player_update32 (held true false false true) (Rect.mk 799 (-3) 75 25)) /\
  Player_update32 (held true false false true) (Rect.mk 799 (-3) 75 25)
    = Rect.mk 725 0 75 25.
Proof.
  pose proof (Player_update_on_screen (held true false false true)
                (Rect.mk 799 (-3) 75 25) eq_refl eq_refl
                ltac:(vm_compute; split; discriminate)
                ltac:(vm_compute; split; discriminate)
                ltac:(vm_compute; split; discriminate)
                ltac:(vm_compute; split; discriminate)) as (H & _).
  split; [exact H | reflexivity].
Defined.

(** C2 as stated fails at the end of the 32-bit range: for the
    rectangle at x = 2147483600 the right edge, x + 75, wraps to a
    negative number, no clamp applies, and the rectangle stays where it
    is, off the screen. *)
Lemma Player_update_wraps_off_screen :
  Rect.w (Rect.mk 2147483600 0 75 25) = Player_width /\
  Rect.h (Rect.mk 2147483600 0 75 25) = Player_height /\
  Rect32.right (Rect.mk 2147483600 0 75 25) = -2147483621 /\
  Player_update32 no_keys (Rect.mk 2147483600 0 75 25)
    = Rect.mk 2147483600 0 75 25 /\
  ~ Rect32.on_screen (Player_update32 no_keys (Rect.mk 2147483600 0 75 25)).
Proof.
  assert (E : Player_update32 no_keys (Rect.mk 2147483600 0 75 25)
              = Rect.mk 2147483600 0 75 25) by (vm_compute; reflexivity).
  split; [reflexivity |]. split; [reflexivity |].
  split; [vm_compute; reflexivity |]. split; [exact E |].
  rewrite E. unfold Rect32.on_screen, Rect32.left; simpl.
  unfold SCREEN_WIDTH. lia.
Qed.

(** The regression input of the specification: with left and right both
    held the player moves right. *)
Example displacement_left_right :
  displacement (held false false true true) = (5, 0).
Proof. reflexivity. Qed.

(** C7, as the code has it.  The class [Player] declares the shape 75
    by 25, and a new player's rectangle is the rectangle of its surface,
    placed with its top-left corner at the origin: (0, 0, w, h) for a
    sprite image of w by h pixels, which is (0,0,75,25) for an image of
    the declared shape. *)
Theorem Player_init_rect (image : Surface) :
  Player_width = 75 /\ Player_height = 25 /\
  rect_of (Player_init image) =
    Rect.mk 0 0 (Z.of_N (surf_width image)) (Z.of_N (surf_height image)) /\
  Rect.left (rect_of (Player_init image)) = 0 /\
  Rect.top (rect_of (Player_init image)) = 0 /\
  (Z.of_N (surf_width image) = Player_width ->
   Z.of_N (surf_height image) = Player_height ->
   rect_of (Player_init image) = Rect.mk 0 0 75 25).
Proof.
  unfold Player_init, get_rect; simpl. repeat split.
  intros -> ->. reflexivity.
Qed.

Lemma Player_init_rect_witness :
  rect_of (Player_init (Build_Surface 75 25)) = Rect.mk 0 0 75 25.
Proof.
  destruct (Player_init_rect (Build_Surface 75 25)) as (_ & _ & _ & _ & _ & H).
  exact (H eq_refl eq_refl).
Defined.

(** C7 as stated fails for a sprite image of any other size: the
    rectangle takes its size from the image, not from the declared
    shape. *)
Lemma Player_init_rect_from_image :
  rect_of (Player_init (Build_Surface 64 48)) = Rect.mk 0 0 64 48 /\
  rect_of (Player_init (Build_Surface 64 48)) <> Rect.mk 0 0 75 25.
Proof. split; [reflexivity | discriminate]. Qed.

(** * Obstacles *)

Lemma randint_range (a b : Z) (r : Random) :
  a <= b -> a <= fst (randint a b r) <= b.
Proof.
  intros Hab. unfold randint; simpl.
  pose proof (Z.mod_pos_bound (r 0%nat) (b - a + 1)). lia.
Qed.

(** Every value of the range is drawn by some source. *)
Lemma randint_draws (a b v : Z) (l : list Z) :
  a <= v <= b -> fst (randint a b (draws ((v - a) :: l))) = v.
Proof.
  intros Hv. unfold randint; simpl. rewrite Z.mod_small; lia.
Qed.

Lemma half_nonneg (n : N) : 0 <= Z.of_N n / 2 <= Z.of_N n.
Proof.
  pose proof (N2Z.is_nonneg n).
  split; [apply Z.div_pos; lia | apply Z.div_le_upper_bound; lia].
Qed.

(** C8, as the code has it.  The class [Enemy] declares the shape 20 by
    10.  For all values x, y and s that the random source draws from
    [SCREEN_WIDTH+20, SCREEN_WIDTH+100], [0, SCREEN_HEIGHT] and [5, 20],
    the new obstacle has speed s and the rectangle of its surface with
    its centre, not its top-left corner, at (x, y): the corner is at
    (x - w / 2, y - h / 2), the halves rounded down,, which is (x - 10, y - 5) for an image of
    the declared shape. *)
Theorem Enemy_init_center (image : Surface) (r r1 r2 r3 : Random) (x y s : Z) :
  randint (SCREEN_WIDTH + 20) (SCREEN_WIDTH + 100) r = (x, r1) ->
  randint 0 SCREEN_HEIGHT r1 = (y, r2) ->
  randint 5 20 r2 = (s, r3) ->
  (SCREEN_WIDTH + 20 <= x <= SCREEN_WIDTH + 100 /\
   0 <= y <= SCREEN_HEIGHT /\ 5 <= s <= 20) /\
  Enemy_width = 20 /\ Enemy_height = 10 /\
  exists rect,
    Enemy_init image r = (Enemy image rect s, r3) /\
    Rect.centerx rect = x /\ Rect.centery rect = y /\
    Rect.w rect = Z.of_N (surf_width image) /\
    Rect.h rect = Z.of_N (surf_height image) /\
    Rect.x rect = x - Z.of_N (surf_width image) / 2 /\
    Rect.y rect = y - Z.of_N (surf_height image) / 2 /\
    (Z.of_N (surf_width image) = Enemy_width ->
     Z.of_N (surf_height image) = Enemy_height ->
     rect = Rect.mk (x - 10) (y - 5) 20 10).
Proof.
  intros Hx Hy Hs.
  split; [| split; [reflexivity | split; [reflexivity |]]].
  - pose proof (randint_range (SCREEN_WIDTH + 20) (SCREEN_WIDTH + 100) r) as Bx.
    pose proof (randint_range 0 SCREEN_HEIGHT r1) as By.
    pose proof (randint_range 5 20 r2) as Bs.
    rewrite Hx in Bx. rewrite Hy in By. rewrite Hs in Bs. simpl in *.
    unfold SCREEN_WIDTH, SCREEN_HEIGHT in *. lia.
  - unfold Enemy_init. rewrite Hx, Hy, Hs.
    eexists; split; [reflexivity |].
    unfold get_rect_center, get_rect, Rect.set_center, Rect.centerx, Rect.centery;
      simpl.
    repeat split; try lia.
    intros -> ->. reflexivity.
Qed.

Lemma Enemy_init_center_witness :
  exists rect,
    Enemy_init (Build_Surface 20 10) (draws [37; 250; 7]) =
      (Enemy (Build_Surface 20 10) rect 12, draws []) /\
    Rect.centerx rect = 857 /\ Rect.centery rect = 250 /\
    rect = Rect.mk 847 245 20 10.
Proof.
  destruct (Enemy_init_center (Build_Surface 20 10)
              (draws [37; 250; 7]) (draws [250; 7]) (draws [7]) (draws [])
              857 250 12 eq_refl eq_refl eq_refl)
    as (_ & _ & _ & rect & E & Cx & Cy & _ & _ & _ & _ & Hd).
  exists rect. repeat split; try assumption.
  apply Hd; reflexivity.
Defined.

(** C8 as stated fails: with the draws x = 820 and y = 0 the 20 by 10
    obstacle's rectangle is placed at (810, -5), not at (820, 0). *)
Lemma Enemy_init_position_not_drawn :
  fst (randint (SCREEN_WIDTH + 20) (SCREEN_WIDTH + 100) (draws [0; 0; 0])) = 820 /\
  fst (randint 0 SCREEN_HEIGHT (draws [0; 0])) = 0 /\
  rect_of (fst (Enemy_init (Build_Surface 20 10) (draws [0; 0; 0])))
    = Rect.mk 810 (-5) 20 10 /\
  Rect.x (rect_of (fst (Enemy_init (Build_Surface 20 10) (draws [0; 0; 0])))) <> 820 /\
  Rect.y (rect_of (fst (Enemy_init (Build_Surface 20 10) (draws [0; 0; 0])))) <> 0.
Proof. repeat split; discriminate. Qed.

(** * Groups *)

Section GroupFacts.

Implicit Types (i j : nat) (l : list nat).

Lemma elem_of_remove i j l : j ∈ Group.remove i l <-> j ∈ l /\ j ≠ i.
Proof. unfold Group.remove. rewrite list_elem_of_filter. tauto. Qed.

Lemma NoDup_remove i l : NoDup l -> NoDup (Group.remove i l).
Proof. apply NoDup_filter. Qed.

Lemma remove_absent i l : i ∉ l -> Group.remove i l = l.
Proof.
  unfold Group.remove. induction l as [| j l IH]; intros Hi; [reflexivity |].
  apply not_elem_of_cons in Hi as [Hij Hi].
  rewrite filter_cons_True by congruence. f_equal. auto.
Qed.

Lemma add_absent i l : i ∉ l -> Group.add i l = l ++ [i].
Proof. intros Hi. unfold Group.add. destruct (decide (i ∈ l)); tauto. Qed.

Lemma elem_of_add i j l : j ∈ Group.add i l <-> j = i \/ j ∈ l.
Proof.
  unfold Group.add. destruct (decide (i ∈ l)) as [Hi | Hi].
  - split; [auto | intros [-> | ?]; assumption].
  - rewrite elem_of_app, list_elem_of_singleton. tauto.
Qed.

Lemma NoDup_add i l : NoDup l -> NoDup (Group.add i l).
Proof.
  intros Hl. unfold Group.add. destruct (decide (i ∈ l)) as [Hi | Hi]; [assumption |].
  apply NoDup_app. split; [assumption | split; [| apply NoDup_singleton]].
  intros j Hj Hji. apply list_elem_of_singleton in Hji. congruence.
Qed.

End GroupFacts.

(** * One call of [Enemy.update] *)

Section EnemyUpdate.

Implicit Types (i j : nat) (g : Game).

(** What a call does to the state, field by field. *)
Lemma Enemy_update_Ok i g image rect s :
  heap g !! i = Some (Enemy image rect s) ->
  exists g',
    Enemy_update i g = Ok g' /\
    heap g' = <[i := Enemy image (Enemy_move rect s) s]> (heap g) /\
    enemies g' =
      (if Rect.right (Enemy_move rect s) <? 0
       then Group.remove i (enemies g) else enemies g) /\
    all_sprites g' =
      (if Rect.right (Enemy_move rect s) <? 0
       then Group.remove i (all_sprites g) else all_sprites g) /\
    next_id g' = next_id g /\ running g' = running g /\
    pressed_keys g' = pressed_keys g /\ random g' = random g /\
    trace g' = trace g.
Proof.
  intros Hi. unfold Enemy_update. rewrite Hi.
  eexists; split; [reflexivity |].
  destruct (Rect.right (Enemy_move rect s) <? 0); simpl; repeat split.
Qed.

Lemma Enemy_update_is_Enemy i g g' :
  Enemy_update i g = Ok g' -> is_Enemy (heap g !! i) = true.
Proof.
  unfold Enemy_update.
  destruct (heap g !! i) as [[? ? | ? ? ?] |]; simpl; intros; congruence.
Qed.

Lemma is_Enemy_Some (o : option Sprite) :
  is_Enemy o = true -> exists image rect s, o = Some (Enemy image rect s).
Proof. destruct o as [[? ? | ? ? ?] |]; simpl; intros; try discriminate; eauto. Qed.

(** The other objects are left alone, and no object changes its
    class. *)
Lemma Enemy_update_other i j g g' :
  Enemy_update i g = Ok g' -> j ≠ i ->
  heap g' !! j = heap g !! j /\
  (j ∈ enemies g' <-> j ∈ enemies g) /\
  (j ∈ all_sprites g' <-> j ∈ all_sprites g).
Proof.
  intros Hu Hji.
  destruct (is_Enemy_Some _ (Enemy_update_is_Enemy _ _ _ Hu)) as (im & rc & s & Hi).
  destruct (Enemy_update_Ok i g im rc s Hi) as (g2 & Hu2 & Hh & He & Ha & _).
  rewrite Hu in Hu2. injection Hu2 as <-.
  rewrite Hh, He, Ha. rewrite lookup_insert_ne by congruence.
  destruct (Rect.right (Enemy_move rc s) <? 0);
    rewrite ?elem_of_remove; tauto.
Qed.

Lemma Enemy_update_class i j g g' :
  Enemy_update i g = Ok g' ->
  is_Enemy (heap g' !! j) = is_Enemy (heap g !! j) /\
  is_Player (heap g' !! j) = is_Player (heap g !! j) /\
  (heap g' !! j = None <-> heap g !! j = None).
Proof.
  intros Hu. destruct (decide (j = i)) as [-> | Hji].
  - destruct (is_Enemy_Some _ (Enemy_update_is_Enemy _ _ _ Hu)) as (im & rc & s & Hi).
    destruct (Enemy_update_Ok i g im rc s Hi) as (g2 & Hu2 & Hh & _).
    rewrite Hu in Hu2. injection Hu2 as <-.
    rewrite Hh, lookup_insert_eq, Hi. simpl. repeat split; discriminate.
  - destruct (Enemy_update_other i j g g' Hu Hji) as (-> & _). tauto.
Qed.

(** The groups only shrink. *)
Lemma Enemy_update_groups i j g g' :
  Enemy_update i g = Ok g' ->
  (j ∈ enemies g' -> j ∈ enemies g) /\
  (j ∈ all_sprites g' -> j ∈ all_sprites g) /\
  (NoDup (enemies g) -> NoDup (enemies g')) /\
  (NoDup (all_sprites g) -> NoDup (all_sprites g')).
Proof.
  intros Hu.
  destruct (is_Enemy_Some _ (Enemy_update_is_Enemy _ _ _ Hu)) as (im & rc & s & Hi).
  destruct (Enemy_update_Ok i g im rc s Hi) as (g2 & Hu2 & _ & He & Ha & _).
  rewrite Hu in Hu2. injection Hu2 as <-. rewrite He, Ha.
  destruct (Rect.right (Enemy_move rc s) <? 0);
    rewrite ?elem_of_remove; repeat split; auto using NoDup_remove; tauto.
Qed.

End EnemyUpdate.

(** * Results *)

Lemma bind_Ok {A B : Type} (m : Result A) (f : A -> Result B) (b : B) :
  (a ← m; f a) = Ok b <-> exists a, m = Ok a /\ f a = Ok b.
Proof.
  destruct m as [a | e]; simpl; split.
  - intros H. exists a. auto.
  - intros (a' & E & H). injection E as <-. exact H.
  - discriminate.
  - intros (a' & E & _). discriminate.
Qed.

Lemma bind_eq_Ok {A B : Type} (m : Result A) (f : A -> Result B) (a : A) :
  m = Ok a -> (a ← m; f a) = f a.
Proof. intros ->. reflexivity. Qed.

(** * A pass of [enemies.update()] *)

Section Pass.

Implicit Types (i j : nat) (l : list nat) (g : Game).

Lemma update_each_total l : forall g,
  Forall (fun i => is_Enemy (heap g !! i) = true) l ->
  exists g', update_each l g = Ok g'.
Proof.
  induction l as [| i l IH]; intros g Hl; simpl; [eauto |].
  apply Forall_cons in Hl as [Hi Hl].
  destruct (is_Enemy_Some _ Hi) as (im & rc & s & Hs).
  destruct (Enemy_update_Ok i g im rc s Hs) as (g1 & Hu & _).
  rewrite Hu; simpl. apply IH.
  eapply Forall_impl; [exact Hl |]. intros j Hj. simpl in *.
  destruct (Enemy_update_class i j g g1 Hu) as (-> & _). exact Hj.
Qed.

Lemma update_each_class l : forall g g' j,
  update_each l g = Ok g' ->
  is_Enemy (heap g' !! j) = is_Enemy (heap g !! j) /\
  is_Player (heap g' !! j) = is_Player (heap g !! j) /\
  (heap g' !! j = None <-> heap g !! j = None).
Proof.
  induction l as [| i l IH]; intros g g' j H; simpl in H.
  - injection H as <-. tauto.
  - apply bind_Ok in H as (g1 & H1 & H2).
    destruct (Enemy_update_class i j g g1 H1) as (E1 & P1 & N1).
    destruct (IH g1 g' j H2) as (E2 & P2 & N2).
    rewrite E2, P2, N2. tauto.
Qed.

Lemma update_each_groups l : forall g g' j,
  update_each l g = Ok g' ->
  (j ∈ enemies g' -> j ∈ enemies g) /\
  (j ∈ all_sprites g' -> j ∈ all_sprites g) /\
  (NoDup (enemies g) -> NoDup (enemies g')) /\
  (NoDup (all_sprites g) -> NoDup (all_sprites g')).
Proof.
  induction l as [| i l IH]; intros g g' j H; simpl in H.
  - injection H as <-. tauto.
  - apply bind_Ok in H as (g1 & H1 & H2).
    destruct (Enemy_update_groups i j g g1 H1) as (A1 & B1 & C1 & D1).
    destruct (IH g1 g' j H2) as (A2 & B2 & C2 & D2).
    repeat split; auto.
Qed.

Lemma update_each_fields l : forall g g',
  update_each l g = Ok g' ->
  next_id g' = next_id g /\ running g' = running g /\
  pressed_keys g' = pressed_keys g /\ random g' = random g /\
  trace g' = trace g.
Proof.
  induction l as [| i l IH]; intros g g' H; simpl in H.
  - injection H as <-. tauto.
  - apply bind_Ok in H as (g1 & H1 & H2).
    destruct (is_Enemy_Some _ (Enemy_update_is_Enemy _ _ _ H1)) as (im & rc & s & Hi).
    destruct (Enemy_update_Ok i g im rc s Hi)
      as (g2 & Hu2 & _ & _ & _ & F1 & F2 & F3 & F4 & F5).
    rewrite H1 in Hu2. injection Hu2 as <-.
    destruct (IH g1 g' H2) as (G1 & G2 & G3 & G4 & G5).
    repeat split; congruence.
Qed.

(** An object that is not in the list is not touched. *)
Lemma update_each_other l : forall g g' j,
  update_each l g = Ok g' -> j ∉ l ->
  heap g' !! j = heap g !! j /\
  (j ∈ enemies g' <-> j ∈ enemies g) /\
  (j ∈ all_sprites g' <-> j ∈ all_sprites g).
Proof.
  induction l as [| i l IH]; intros g g' j H Hj; simpl in H.
  - injection H as <-. tauto.
  - apply bind_Ok in H as (g1 & H1 & H2).
    apply not_elem_of_cons in Hj as [Hji Hj].
    destruct (Enemy_update_other i j g g1 H1 Hji) as (E1 & M1 & A1).
    destruct (IH g1 g' j H2 Hj) as (E2 & M2 & A2).
    rewrite E2, M2, A2. tauto.
Qed.

(** An enemy that occurs once in the list is moved once, and leaves
    both groups exactly if its right edge is then negative. *)
Lemma update_each_at l : forall g g' i image rect s,
  NoDup l -> i ∈ l ->
  heap g !! i = Some (Enemy image rect s) ->
  update_each l g = Ok g' ->
  heap g' !! i = Some (Enemy image (Enemy_move rect s) s) /\
  (i ∈ enemies g' <-> i ∈ enemies g /\ 0 <= Rect.right (Enemy_move rect s)) /\
  (i ∈ all_sprites g' <->
     i ∈ all_sprites g /\ 0 <= Rect.right (Enemy_move rect s)).
Proof.
  induction l as [| k l IH]; intros g g' i im rc s Hnd Hi Hs H; simpl in H.
  - apply elem_of_nil in Hi. contradiction.
  - apply bind_Ok in H as (g1 & H1 & H2).
    apply NoDup_cons in Hnd as [Hk Hnd].
    apply elem_of_cons in Hi as [-> | Hi].
    + destruct (Enemy_update_Ok k g im rc s Hs) as (g2 & Hu2 & Hh & He & Ha & _).
      rewrite H1 in Hu2. injection Hu2 as <-.
      destruct (update_each_other l g1 g' k H2 Hk) as (E2 & M2 & A2).
      rewrite E2, M2, A2, Hh, He, Ha, lookup_insert_eq.
      split; [reflexivity |].
      destruct (Rect.right (Enemy_move rc s) <? 0) eqn:E;
        [apply Z.ltb_lt in E | apply Z.ltb_ge in E];
        rewrite ?elem_of_remove; split; split; try tauto; try lia.
      all: intros [_ ?]; lia.
    + assert (Hik : i ≠ k) by (intros ->; contradiction).
      destruct (Enemy_update_other k i g g1 H1 Hik) as (E1 & M1 & A1).
      rewrite <- E1 in Hs.
      destruct (IH g1 g' i im rc s Hnd Hi Hs H2) as (E2 & M2 & A2).
      rewrite E2, M2, A2, M1, A1. tauto.
Qed.

Lemma enemies_update_ok g :
  enemies_ok g -> exists g', enemies_update g = Ok g' /\ enemies_ok g'.
Proof.
  intros [Hnd Hen].
  destruct (update_each_total (enemies g) g Hen) as (g' & Hu).
  exists g'. split; [exact Hu |]. split.
  - destruct (update_each_groups _ g g' 0%nat Hu) as (_ & _ & H & _). auto.
  - apply Forall_forall. intros j Hj.
    destruct (update_each_groups _ g g' j Hu) as (H & _).
    destruct (update_each_class _ g g' j Hu) as (-> & _).
    rewrite Forall_forall in Hen. auto.
Qed.

Lemma update_passes_ok k : forall g,
  enemies_ok g -> exists g', update_passes k g = Ok g' /\ enemies_ok g'.
Proof.
  induction k as [| k IH]; intros g Hg; simpl; [eauto |].
  destruct (enemies_update_ok g Hg) as (g1 & H1 & Hg1).
  rewrite H1; simpl. auto.
Qed.

End Pass.

(** * Obstacles over several passes *)

Section Passes.

Implicit Types (i j : nat) (k : nat) (g : Game).

Lemma right_Enemy_move (rect : Rect.t) (s : Z) :
  Rect.right (Enemy_move rect s) = Rect.right rect - s.
Proof. unfold Enemy_move, Rect.move_ip, Rect.right; simpl. lia. Qed.

Lemma Enemy_move_passes (rect : Rect.t) (s : Z) k :
  Rect.move_ip (- (s * Z.of_nat k)) 0 (Enemy_move rect s)
  = Rect.move_ip (- (s * Z.of_nat (S k))) 0 rect.
Proof.
  unfold Enemy_move. rewrite move_ip_move_ip. f_equal; lia.
Qed.

Lemma update_passes_shrink k : forall g g' j,
  update_passes k g = Ok g' ->
  (j ∈ enemies g' -> j ∈ enemies g) /\
  (j ∈ all_sprites g' -> j ∈ all_sprites g).
Proof.
  induction k as [| k IH]; intros g g' j H; simpl in H.
  - injection H as <-. tauto.
  - apply bind_Ok in H as (g1 & H1 & H2).
    destruct (update_each_groups _ g g1 j H1) as (A1 & B1 & _).
    destruct (IH g1 g' j H2) as (A2 & B2). auto.
Qed.

(** While an enemy is in the obstacle set, every pass moves it once. *)
Lemma update_passes_moved k : forall g g' i image rect s,
  enemies_ok g -> heap g !! i = Some (Enemy image rect s) ->
  update_passes k g = Ok g' -> i ∈ enemies g' ->
  heap g' !! i = Some (Enemy image (Rect.move_ip (- (s * Z.of_nat k)) 0 rect) s).
Proof.
  induction k as [| k IH]; intros g g' i im rc s Hg Hs H Hin; simpl in H.
  - injection H as <-. rewrite Hs. do 2 f_equal.
    destruct rc; unfold Rect.move_ip; simpl. f_equal; lia.
  - apply bind_Ok in H as (g1 & H1 & H2).
    destruct (enemies_update_ok g Hg) as (g1' & H1' & Hg1).
    rewrite H1 in H1'. injection H1' as <-.
    destruct (update_passes_shrink k g1 g' i H2) as (Hin1 & _).
    specialize (Hin1 Hin).
    destruct (update_each_groups _ g g1 i H1) as (Hin0 & _).
    destruct Hg as [Hnd Hen].
    destruct (update_each_at _ g g1 i im rc s Hnd (Hin0 Hin1) Hs H1) as (Hs1 & _).
    rewrite (IH g1 g' i im _ s Hg1 Hs1 H2 Hin).
    rewrite Enemy_move_passes. reflexivity.
Qed.

(** An enemy of non-negative speed is in the groups after [k] passes
    exactly if its right edge, [k] moves on, is not negative. *)
Lemma update_passes_member k : forall g g' i image rect s,
  enemies_ok g -> heap g !! i = Some (Enemy image rect s) ->
  i ∈ enemies g -> 0 <= s -> 0 <= Rect.right rect ->
  update_passes k g = Ok g' ->
  (i ∈ enemies g' <-> 0 <= Rect.right rect - s * Z.of_nat k) /\
  (i ∈ all_sprites g' <->
     i ∈ all_sprites g /\ 0 <= Rect.right rect - s * Z.of_nat k).
Proof.
  induction k as [| k IH]; intros g g' i im rc s Hg Hs Hin Hpos Hr H; simpl in H.
  - injection H as <-. split; [split; [lia | intros _; exact Hin] |].
    split; [intros Ha; split; [exact Ha | lia] | tauto].
  - apply bind_Ok in H as (g1 & H1 & H2).
    destruct (enemies_update_ok g Hg) as (g1' & H1' & Hg1).
    rewrite H1 in H1'. injection H1' as <-.
    pose proof Hg as [Hnd Hen].
    destruct (update_each_at _ g g1 i im rc s Hnd Hin Hs H1) as (Hs1 & M1 & A1).
    rewrite right_Enemy_move in M1, A1.
    destruct (update_passes_shrink k g1 g' i H2) as (Sh1 & Sh2).
    destruct (Z_lt_le_dec (Rect.right rc - s) 0) as [Hneg | Hnn].
    + assert (Rect.right rc - s * Z.of_nat (S k) < 0) by nia.
      split; split; try lia.
      * intros Hc. apply Sh1, M1 in Hc. lia.
      * intros Hc. apply Sh2, A1 in Hc. lia.
    + assert (Hin1 : i ∈ enemies g1) by (apply M1; tauto).
      assert (Hr1 : 0 <= Rect.right (Enemy_move rc s))
        by (rewrite right_Enemy_move; lia).
      destruct (IH g1 g' i im _ s Hg1 Hs1 Hin1 Hpos Hr1 H2) as (M2 & A2).
      rewrite right_Enemy_move in M2, A2.
      replace (Rect.right rc - s * Z.of_nat (S k))
        with (Rect.right rc - s - s * Z.of_nat k) by lia.
      rewrite M2, A2, A1. split; [tauto |].
      split; [tauto | intros [? ?]; repeat split; try assumption; lia].
Qed.

End Passes.


(** * The invariant of the loop *)

Section Invariant.

Variables player_image enemy_image : Surface.

Implicit Types (i j : nat) (g : Game).

Lemma wf_main_init (r : Random) : wf (main_init player_image r).
Proof.
  unfold main_init, Player_init. split; simpl.
  - rewrite lookup_singleton_eq. reflexivity.
  - split; simpl; constructor.
  - intros i Hi. apply elem_of_nil in Hi. contradiction.
  - intros i Hi. apply list_elem_of_singleton in Hi. auto.
  - apply NoDup_singleton.
  - intros i Hi. apply lookup_singleton_ne. unfold player. lia.
  - intros _. apply list_elem_of_singleton. reflexivity.
Qed.

(** The invariant reads the sprites and the groups only, and asks
    less of a state that has stopped running. *)
Lemma wf_weaken g g' :
  heap g' = heap g -> next_id g' = next_id g ->
  enemies g' = enemies g -> all_sprites g' = all_sprites g ->
  (running g' = true -> running g = true) ->
  wf g -> wf g'.
Proof.
  intros Hh Hn He Ha Hr [W1 W2 W3 W4 W5 W6 W7].
  split; unfold enemies_ok in *; rewrite ?Hh, ?Hn, ?He, ?Ha; auto.
Qed.

Lemma wf_add_trace tr g : wf g -> wf (add_trace tr g).
Proof. apply wf_weaken; auto. Qed.

Lemma wf_emit e g : wf g -> wf (emit e g).
Proof. apply wf_weaken; auto. Qed.

Lemma wf_set_running_false g : wf g -> wf (set_running false g).
Proof. apply wf_weaken; auto. simpl. discriminate. Qed.

Lemma wf_set_pressed_keys k g : wf g -> wf (set_pressed_keys k g).
Proof. apply wf_weaken; auto. Qed.

(** Identities held by a group denote objects; the next identity
    denotes none yet. *)
Lemma wf_allocated g i :
  wf g -> i ∈ all_sprites g -> heap g !! i <> None.
Proof.
  intros [W1 [_ W2] _ W4 _ _ _] Hi Hn.
  destruct (W4 i Hi) as [-> | He].
  - rewrite Hn in W1. discriminate.
  - rewrite Forall_forall in W2. specialize (W2 i He).
    rewrite Hn in W2. discriminate.
Qed.

Lemma wf_player_not_enemy g : wf g -> player ∉ enemies g.
Proof.
  intros [W1 [_ W2] _ _ _ _ _] Hp.
  rewrite Forall_forall in W2. specialize (W2 player Hp).
  destruct (heap g !! player) as [[? ? | ? ? ?] |]; simpl in *; discriminate.
Qed.

Lemma Enemy_init_shape (r : Random) :
  exists rect s r', Enemy_init enemy_image r = (Enemy enemy_image rect s, r').
Proof. unfold Enemy_init; simpl. eauto. Qed.

Lemma wf_add_enemy g : wf g -> wf (add_enemy enemy_image g).
Proof.
  intros Hg. pose proof Hg as [W1 [W2a W2b] W3 W4 W5 W6 W7].
  assert (Hfresh : heap g !! next_id g = None) by (apply W6; lia).
  assert (Hna : next_id g ∉ all_sprites g).
  { intros Hc. exact (wf_allocated g _ Hg Hc Hfresh). }
  assert (Hne : next_id g ∉ enemies g) by (intros Hc; apply Hna, W3, Hc).
  assert (Hnp : next_id g ≠ player).
  { intros Hc. rewrite Hc in Hfresh. rewrite Hfresh in W1. discriminate. }
  unfold add_enemy.
  destruct (Enemy_init_shape (random g)) as (rect & s & r' & ->).
  split; simpl.
  - rewrite lookup_insert_ne by exact Hnp. exact W1.
  - split; simpl; [apply NoDup_add; exact W2a |].
    apply Forall_forall. intros j Hj. apply elem_of_add in Hj as [-> | Hj].
    + rewrite lookup_insert_eq. reflexivity.
    + rewrite lookup_insert_ne by (intros <-; contradiction).
      rewrite Forall_forall in W2b. auto.
  - intros j Hj. apply elem_of_add. apply elem_of_add in Hj as [-> | Hj]; auto.
  - intros j Hj. apply elem_of_add in Hj as [-> | Hj].
    + right. apply elem_of_add. auto.
    + destruct (W4 j Hj) as [-> | He]; [auto |].
      right. apply elem_of_add. auto.
  - apply NoDup_add. exact W5.
  - intros j Hj. rewrite lookup_insert_ne by lia. apply W6. lia.
  - intros Hr. apply elem_of_add. auto.
Qed.

Lemma wf_handle_event g input : wf g -> wf (handle_event enemy_image g input).
Proof.
  intros Hg. destruct input as [event keys]. unfold handle_event.
  apply wf_set_pressed_keys.
  destruct (is_add_enemy event); [apply wf_add_enemy |];
    destruct (is_quit event); auto using wf_set_running_false.
Qed.

Lemma wf_handle_events events : forall g,
  wf g -> wf (handle_events enemy_image events g).
Proof.
  unfold handle_events.
  induction events as [| input events IH]; intros g Hg; simpl; [exact Hg |].
  apply IH, wf_handle_event, Hg.
Qed.

Lemma wf_player_update g g' : player_update g = Ok g' -> wf g -> wf g'.
Proof.
  unfold player_update. intros H Hg.
  destruct (pressed_keys g) as [keys |]; [| discriminate].
  destruct (heap g !! player) as [[image rect | ? ? ?] |] eqn:Hp; try discriminate.
  injection H as <-.
  pose proof Hg as [W1 [W2a W2b] W3 W4 W5 W6 W7].
  split; simpl; auto.
  - rewrite lookup_insert_eq. reflexivity.
  - split; simpl; [exact W2a |].
    apply Forall_forall. intros j Hj.
    rewrite lookup_insert_ne.
    + rewrite Forall_forall in W2b. auto.
    + intros <-. exact (wf_player_not_enemy g Hg Hj).
  - intros j Hj. rewrite lookup_insert_ne; [apply W6, Hj |].
    intros <-. rewrite (W6 player Hj) in Hp. discriminate.
Qed.

Lemma wf_Enemy_update i g g' : Enemy_update i g = Ok g' -> wf g -> wf g'.
Proof.
  intros Hu Hg. pose proof Hg as [W1 [W2a W2b] W3 W4 W5 W6 W7].
  destruct (is_Enemy_Some _ (Enemy_update_is_Enemy _ _ _ Hu)) as (im & rc & s & Hi).
  destruct (Enemy_update_Ok i g im rc s Hi)
    as (g2 & Hu2 & Hh & He & Ha & Hn & Hr & _).
  rewrite Hu in Hu2. injection Hu2 as <-.
  assert (Hip : i ≠ player).
  { intros ->. rewrite Hi in W1. discriminate. }
  split.
  - destruct (Enemy_update_class i player g g' Hu) as (_ & -> & _). exact W1.
  - split.
    + destruct (Enemy_update_groups i 0%nat g g' Hu) as (_ & _ & H & _). auto.
    + apply Forall_forall. intros j Hj.
      destruct (Enemy_update_groups i j g g' Hu) as (H & _).
      destruct (Enemy_update_class i j g g' Hu) as (-> & _).
      rewrite Forall_forall in W2b. auto.
  - intros j. rewrite He, Ha.
    destruct (Rect.right (Enemy_move rc s) <? 0); rewrite ?elem_of_remove;
      [intros [? ?]; split |]; auto.
  - intros j. rewrite He, Ha.
    destruct (Rect.right (Enemy_move rc s) <? 0); rewrite ?elem_of_remove; auto.
    intros [Hj Hji]. destruct (W4 j Hj); auto.
  - destruct (Enemy_update_groups i 0%nat g g' Hu) as (_ & _ & _ & H). auto.
  - intros j Hj. rewrite Hn in Hj.
    destruct (Enemy_update_class i j g g' Hu) as (_ & _ & H). apply H, W6, Hj.
  - intros Hrun. rewrite Hr in Hrun.
    destruct (Enemy_update_other i player g g' Hu) as (_ & _ & H); [congruence |].
    apply H, W7, Hrun.
Qed.

Lemma wf_update_each l : forall g g',
  update_each l g = Ok g' -> wf g -> wf g'.
Proof.
  induction l as [| i l IH]; intros g g' H Hg; simpl in H.
  - injection H as <-. exact Hg.
  - apply bind_Ok in H as (g1 & H1 & H2).
    eauto using wf_Enemy_update.
Qed.

Lemma wf_kill_player g : wf g -> wf (set_running false (kill player g)).
Proof.
  intros Hg. pose proof Hg as [W1 [W2a W2b] W3 W4 W5 W6 W7].
  split; simpl; auto.
  - split; simpl; [apply NoDup_remove, W2a |].
    apply Forall_forall. intros j Hj. apply elem_of_remove in Hj as [Hj _].
    rewrite Forall_forall in W2b. auto.
  - intros j Hj. apply elem_of_remove in Hj as [Hj Hjp].
    apply elem_of_remove. auto.
  - intros j Hj. apply elem_of_remove in Hj as [Hj Hjp].
    destruct (W4 j Hj) as [-> | He]; [contradiction |].
    right. apply elem_of_remove. auto.
  - apply NoDup_remove, W5.
  - discriminate.
Qed.

Lemma wf_on_collision g : wf g -> wf (on_collision g).
Proof.
  intros Hg. unfold on_collision.
  eapply wf_weaken; [.. | exact (wf_kill_player g Hg)]; auto.
Qed.

End Invariant.

(** * The phases of a frame *)

Section Phases.

Variables player_image enemy_image : Surface.

Implicit Types (i j : nat) (g : Game) (events : FrameInput).

Lemma add_trace_add_trace tr1 tr2 g :
  add_trace tr2 (add_trace tr1 g) = add_trace (tr1 ++ tr2) g.
Proof. unfold add_trace; simpl. f_equal. symmetry. apply app_assoc. Qed.

Lemma blit_each_total l : forall g,
  (forall i, i ∈ l -> heap g !! i <> None) ->
  exists tr, blit_each l g = Ok (add_trace tr g).
Proof.
  induction l as [| i l IH]; intros g Hl; simpl.
  - exists []. unfold add_trace. rewrite app_nil_r. destruct g; reflexivity.
  - destruct (heap g !! i) as [s |] eqn:Hi.
    + destruct (IH (emit (blit (surface_of s) (rect_of s)) g)) as (tr & Htr).
      { intros j Hj. simpl. apply Hl. apply elem_of_cons. auto. }
      rewrite Htr. eexists.
      change (emit ?e g) with (add_trace [e] g).
      rewrite add_trace_add_trace. reflexivity.
    + exfalso. apply (Hl i); [apply elem_of_cons; auto | exact Hi].
Qed.

Lemma blit_each_inv l : forall g g',
  blit_each l g = Ok g' -> exists tr, g' = add_trace tr g.
Proof.
  induction l as [| i l IH]; intros g g' H; simpl in H.
  - injection H as <-. exists []. unfold add_trace. rewrite app_nil_r.
    destruct g; reflexivity.
  - destruct (heap g !! i) as [s |]; [| discriminate].
    destruct (IH _ _ H) as (tr & ->). eexists.
    change (emit ?e g) with (add_trace [e] g).
    rewrite add_trace_add_trace. reflexivity.
Qed.

Lemma render_inv g g' :
  render g = Ok g' -> exists tr, g' = add_trace (blit_background :: tr) g.
Proof.
  unfold render. intros H. destruct (blit_each_inv _ _ _ H) as (tr & ->).
  exists tr. change (emit ?e g) with (add_trace [e] g).
  rewrite add_trace_add_trace. reflexivity.
Qed.

Lemma render_total g : wf g -> exists g', render g = Ok g'.
Proof.
  intros Hg. unfold render.
  destruct (blit_each_total (all_sprites g) (emit blit_background g)) as (tr & H).
  - intros i Hi. simpl. apply (wf_allocated g i Hg Hi).
  - eauto.
Qed.

Lemma collideany_total hp rect l :
  (forall i, i ∈ l -> hp !! i <> None) ->
  exists hit, collideany hp rect l = Ok hit.
Proof.
  induction l as [| i l IH]; intros Hl; simpl; [eauto |].
  destruct (hp !! i) as [s |] eqn:Hi.
  - destruct (Rect.colliderect rect (rect_of s)); [eauto |].
    apply IH. intros j Hj. apply Hl. apply elem_of_cons. auto.
  - exfalso. apply (Hl i); [apply elem_of_cons; auto | exact Hi].
Qed.

Lemma spritecollideany_total g :
  wf g -> exists hit, spritecollideany player (enemies g) g = Ok hit.
Proof.
  intros Hg. pose proof Hg as [W1 _ W3 _ _ _ _]. unfold spritecollideany.
  destruct (heap g !! player) as [s |]; [| discriminate].
  apply collideany_total. intros i Hi.
  apply (wf_allocated g i Hg). apply W3, Hi.
Qed.

Lemma check_collision_hit g j :
  spritecollideany player (enemies g) g = Ok (Some j) ->
  check_collision g = Ok (on_collision g).
Proof. unfold check_collision. intros ->. reflexivity. Qed.

Lemma check_collision_miss g :
  spritecollideany player (enemies g) g = Ok None ->
  check_collision g = Ok g.
Proof. unfold check_collision. intros ->. reflexivity. Qed.

Lemma check_collision_inv g g' :
  check_collision g = Ok g' ->
  (spritecollideany player (enemies g) g = Ok None /\ g' = g) \/
  ((exists j, spritecollideany player (enemies g) g = Ok (Some j)) /\
   g' = on_collision g).
Proof.
  unfold check_collision. intros H. apply bind_Ok in H as ([j |] & H1 & H2);
    injection H2 as <-; eauto.
Qed.

Lemma wf_render g g' : render g = Ok g' -> wf g -> wf g'.
Proof.
  intros H Hg. destruct (render_inv g g' H) as (tr & ->).
  apply wf_add_trace, Hg.
Qed.

Lemma wf_check_collision g g' : check_collision g = Ok g' -> wf g -> wf g'.
Proof.
  intros H Hg. destruct (check_collision_inv g g' H) as [[_ ->] | [_ ->]];
    auto using wf_on_collision.
Qed.

Lemma wf_present g : wf g -> wf (present g).
Proof. intros Hg. unfold present. apply wf_emit, wf_emit, Hg. Qed.

Lemma wf_step g g' : step enemy_image g g' -> wf g -> wf g'.
Proof.
  intros [] Hg;
    eauto using wf_handle_event, wf_player_update, wf_Enemy_update,
      wf_render, wf_check_collision, wf_present.
Qed.

Lemma wf_reachable g : reachable player_image enemy_image g -> wf g.
Proof.
  induction 1 as [r | g g' _ IH Hs];
    [apply wf_main_init | exact (wf_step g g' Hs IH)].
Qed.

(** The frame, phase by phase. *)
Lemma frame_phases events g g' :
  frame enemy_image events g = Ok g' <->
  exists g1 g2 g3 g4,
    player_update (handle_events enemy_image events g) = Ok g1 /\
    enemies_update g1 = Ok g2 /\ render g2 = Ok g3 /\
    check_collision g3 = Ok g4 /\ g' = present g4.
Proof.
  unfold frame. split.
  - intros H.
    apply bind_Ok in H as (g1 & H1 & H).
    apply bind_Ok in H as (g2 & H2 & H).
    apply bind_Ok in H as (g3 & H3 & H).
    apply bind_Ok in H as (g4 & H4 & H).
    injection H as <-. exists g1, g2, g3, g4. auto.
  - intros (g1 & g2 & g3 & g4 & H1 & H2 & H3 & H4 & ->).
    rewrite H1; simpl. rewrite H2; simpl. rewrite H3; simpl.
    rewrite H4; simpl. reflexivity.
Qed.

Lemma frame_updates_phases events g g3 :
  frame_updates enemy_image events g = Ok g3 <->
  exists g1 g2,
    player_update (handle_events enemy_image events g) = Ok g1 /\
    enemies_update g1 = Ok g2 /\ render g2 = Ok g3.
Proof.
  unfold frame_updates. split.
  - intros H.
    apply bind_Ok in H as (g1 & H1 & H).
    apply bind_Ok in H as (g2 & H2 & H). eauto.
  - intros (g1 & g2 & H1 & H2 & H3).
    rewrite H1; simpl. rewrite H2; simpl. exact H3.
Qed.

Lemma frame_after_updates events g g3 :
  frame_updates enemy_image events g = Ok g3 ->
  frame enemy_image events g = (g4 ← check_collision g3; Ok (present g4)).
Proof.
  intros H. apply frame_updates_phases in H as (g1 & g2 & H1 & H2 & H3).
  unfold frame. rewrite H1; simpl. rewrite H2; simpl. rewrite H3; reflexivity.
Qed.

Lemma wf_frame events g g' :
  frame enemy_image events g = Ok g' -> wf g -> wf g'.
Proof.
  intros H Hg.
  apply frame_phases in H as (g1 & g2 & g3 & g4 & H1 & H2 & H3 & H4 & ->).
  apply wf_present. eapply wf_check_collision; [exact H4 |].
  eapply wf_render; [exact H3 |].
  eapply wf_update_each; [exact H2 |].
  eapply wf_player_update; [exact H1 |].
  apply wf_handle_events, Hg.
Qed.

End Phases.

(** * Frames and the loop *)

Section Frames.

Variables player_image enemy_image : Surface.

Implicit Types (i j : nat) (g : Game) (events : FrameInput).

Local Abbreviation reachable := (reachable player_image enemy_image).
Local Abbreviation handle_events := (handle_events enemy_image).
Local Abbreviation frame := (frame enemy_image).

Lemma handle_events_snoc events input g :
  handle_events (events ++ [input]) g
  = handle_event enemy_image (handle_events events g) input.
Proof. apply fold_left_app. Qed.

Lemma reachable_handle_events events : forall g,
  reachable g -> reachable (handle_events events g).
Proof.
  induction events as [| input events IH]; intros g Hg; simpl; [exact Hg |].
  apply IH. eapply reachable_step; [exact Hg | apply step_event].
Qed.

Lemma reachable_update_each l : forall g g',
  update_each l g = Ok g' -> reachable g -> reachable g'.
Proof.
  induction l as [| i l IH]; intros g g' H Hg; simpl in H.
  - injection H as <-. exact Hg.
  - apply bind_Ok in H as (g1 & H1 & H2).
    apply (IH g1 g' H2). eapply reachable_step; [exact Hg |].
    eapply step_enemy; exact H1.
Qed.

(** The state at the end of a frame is one the loop passes through. *)
Lemma reachable_frame events g g' :
  frame events g = Ok g' -> reachable g -> reachable g'.
Proof.
  intros H Hg.
  apply frame_phases in H as (g1 & g2 & g3 & g4 & H1 & H2 & H3 & H4 & ->).
  pose proof (reachable_handle_events events g Hg) as R0.
  assert (R1 : reachable g1)
    by (eapply reachable_step; [exact R0 | apply step_player, H1]).
  assert (R2 : reachable g2) by exact (reachable_update_each _ _ _ H2 R1).
  assert (R3 : reachable g3)
    by (eapply reachable_step; [exact R2 | apply step_render, H3]).
  assert (R4 : reachable g4)
    by (eapply reachable_step; [exact R3 | apply step_collision, H4]).
  eapply reachable_step; [exact R4 | apply step_present].
Qed.

Lemma reachable_run_frames inputs : forall g g',
  run_frames enemy_image inputs g = Ok g' -> reachable g -> reachable g'.
Proof.
  induction inputs as [| events inputs IH]; intros g g' H Hg; simpl in H.
  - injection H as <-. exact Hg.
  - apply bind_Ok in H as (g1 & H1 & H2).
    eauto using reachable_frame.
Qed.

(** ** Event handling *)

Lemma running_handle_event g input :
  running (handle_event enemy_image g input)
  = running g && negb (is_quit (fst input)).
Proof.
  destruct input as [event keys]. unfold handle_event, add_enemy. simpl.
  destruct (Enemy_init enemy_image (random g)) as [e r] eqn:E1.
  destruct (is_quit event); simpl.
  - destruct (is_add_enemy event); simpl;
      rewrite ?E1; simpl; rewrite andb_false_r; reflexivity.
  - destruct (is_add_enemy event); simpl;
      rewrite ?E1; simpl; rewrite andb_true_r; reflexivity.
Qed.

Lemma running_handle_events events : forall g,
  running (handle_events events g)
  = running g && forallb (fun input => negb (is_quit (fst input))) events.
Proof.
  induction events as [| input events IH]; intros g; simpl.
  - rewrite andb_true_r. reflexivity.
  - change (running (handle_events events (handle_event enemy_image g input))
            = running g &&
              (negb (is_quit (fst input)) &&
               forallb (fun input => negb (is_quit (fst input))) events)).
    rewrite IH, running_handle_event, andb_assoc. reflexivity.
Qed.

Lemma has_quit_stops events g :
  has_quit events -> running (handle_events events g) = false.
Proof.
  intros Hq. rewrite running_handle_events.
  apply andb_false_iff. right.
  apply Exists_exists in Hq as (input & Hin & Hq).
  apply not_true_is_false. intros Hall.
  rewrite forallb_forall in Hall.
  specialize (Hall input ltac:(apply list_elem_of_In; exact Hin)).
  rewrite Hq in Hall. discriminate.
Qed.

Lemma pressed_keys_handle_event g event keys :
  pressed_keys (handle_event enemy_image g (event, keys)) = Some keys.
Proof. reflexivity. Qed.

Lemma pressed_keys_handle_events events g :
  events <> [] -> pressed_keys (handle_events events g) <> None.
Proof.
  intros Hne. destruct (exists_last Hne) as (evs & [ev keys] & ->).
  rewrite handle_events_snoc, pressed_keys_handle_event. discriminate.
Qed.

(** ** What the later phases leave alone *)

Lemma player_update_total g :
  wf g -> pressed_keys g <> None -> exists g', player_update g = Ok g'.
Proof.
  intros [W1 _ _ _ _ _ _] Hk. unfold player_update.
  destruct (pressed_keys g); [| congruence].
  destruct (heap g !! player) as [[? ? | ? ? ?] |]; try discriminate. eauto.
Qed.

Lemma player_update_fields g g' :
  player_update g = Ok g' ->
  enemies g' = enemies g /\ all_sprites g' = all_sprites g /\
  running g' = running g /\ pressed_keys g' = pressed_keys g /\
  next_id g' = next_id g /\ trace g' = trace g /\
  forall j, j ≠ player -> heap g' !! j = heap g !! j.
Proof.
  unfold player_update. intros H.
  destruct (pressed_keys g) eqn:Hk; [| discriminate].
  destruct (heap g !! player) as [[? ? | ? ? ?] |]; try discriminate.
  injection H as <-. simpl. rewrite Hk. repeat (split; [reflexivity |]).
  intros j Hj. apply lookup_insert_ne. congruence.
Qed.

Lemma frame_total events g :
  wf g -> pressed_keys (handle_events events g) <> None ->
  exists g', frame events g = Ok g'.
Proof.
  intros Hg Hk.
  pose proof (wf_handle_events enemy_image events g Hg) as W0.
  destruct (player_update_total _ W0 Hk) as (g1 & H1).
  pose proof (wf_player_update _ _ H1 W0) as W1.
  destruct (enemies_update_ok g1 (wf_enemies _ W1)) as (g2 & H2 & _).
  pose proof (wf_update_each _ _ _ H2 W1) as W2.
  destruct (render_total g2 W2) as (g3 & H3).
  pose proof (wf_render _ _ H3 W2) as W3.
  destruct (spritecollideany_total g3 W3) as (hit & H4).
  exists (present (match hit with Some _ => on_collision g3 | None => g3 end)).
  apply frame_phases. exists g1, g2, g3. eexists.
  repeat split; try eassumption.
  unfold check_collision. rewrite H4. simpl. destruct hit; reflexivity.
Qed.

Lemma main_loop_stopped inputs g :
  running g = false ->
  main_loop enemy_image inputs g = Returned (shutdown g).
Proof. intros H. destruct inputs; simpl; rewrite H; reflexivity. Qed.

Lemma main_loop_frame events inputs g g' :
  running g = true -> frame events g = Ok g' ->
  main_loop enemy_image (events :: inputs) g = main_loop enemy_image inputs g'.
Proof. intros Hr Hf. simpl. rewrite Hr, Hf. reflexivity. Qed.

End Frames.

(** * Leaving the loop *)

Section Termination.

Variables player_image enemy_image : Surface.

Implicit Types (g : Game) (events : FrameInput).

Lemma heap_after_updates g2 g3 g4 :
  render g2 = Ok g3 -> check_collision g3 = Ok g4 ->
  heap (present g4) = heap g2 /\
  (running g2 = false -> running (present g4) = false).
Proof.
  intros H3 H4. destruct (render_inv g2 g3 H3) as (tr & ->).
  destruct (check_collision_inv _ g4 H4) as [[_ ->] | [_ ->]]; simpl; auto.
Qed.

Lemma trace_shutdown g :
  trace (shutdown g) = trace g ++ [time_sleep 3; music_stop; mixer_quit].
Proof. unfold shutdown, emit; simpl. rewrite <- !app_assoc. reflexivity. Qed.

End Termination.

(** C6.  When the collision test of a frame reports an overlap, the
    branch does exactly three things: the player leaves the render set,
    the collision sound is played once, and the state becomes
    Terminated; the sprites, the obstacle set and everything else stay
    as they were.  The frame is then presented, the loop is left, and
    [main] sleeps 3 seconds, stops the music and returns, whatever input
    follows.  A Terminated state is never left: from it [main] only
    shuts down. *)
Theorem collision_ends_loop (player_image enemy_image : Surface)
    (g g3 : Game) (events : FrameInput) (inputs : list FrameInput) (j : nat) :
  reachable player_image enemy_image g -> running g = true ->
  frame_updates enemy_image events g = Ok g3 ->
  spritecollideany player (enemies g3) g3 = Ok (Some j) ->
  exists g4,
    check_collision g3 = Ok g4 /\
    all_sprites g4 = Group.remove player (all_sprites g3) /\
    (player ∉ all_sprites g4) /\
    trace g4 = trace g3 ++ [collision_sound_play] /\
    running g4 = false /\
    heap g4 = heap g3 /\ enemies g4 = enemies g3 /\
    next_id g4 = next_id g3 /\ pressed_keys g4 = pressed_keys g3 /\
    random g4 = random g3 /\
    main_loop enemy_image (events :: inputs) g
      = Returned (shutdown (present g4)) /\
    trace (shutdown (present g4))
      = trace g3 ++ [collision_sound_play; display_flip; clock_tick FRAME_RATE;
                     time_sleep 3; music_stop; mixer_quit] /\
    (forall g0 inputs0,
       running g0 = false ->
       main_loop enemy_image inputs0 g0 = Returned (shutdown g0) /\
       trace (shutdown g0) = trace g0 ++ [time_sleep 3; music_stop; mixer_quit]).
Proof.
  intros Hreach Hrun Hup Hhit.
  pose proof (wf_reachable _ _ g Hreach) as Hg.
  assert (W3 : wf g3).
  { apply frame_updates_phases in Hup as (g1 & g2 & H1 & H2 & H3).
    eapply wf_render; [exact H3 |].
    eapply wf_update_each; [exact H2 |].
    eapply wf_player_update; [exact H1 |].
    apply wf_handle_events, Hg. }
  exists (on_collision g3).
  split; [exact (check_collision_hit g3 j Hhit) |].
  split; [reflexivity |].
  split; [simpl; intros Hc; apply elem_of_remove in Hc as [_ Hc]; congruence |].
  split; [reflexivity |]. split; [reflexivity |]. split; [reflexivity |].
  split; [simpl; apply remove_absent, wf_player_not_enemy, W3 |].
  split; [reflexivity |]. split; [reflexivity |]. split; [reflexivity |].
  split; [| split].
  - assert (Hf : frame enemy_image events g = Ok (present (on_collision g3))).
    { rewrite (frame_after_updates enemy_image events g g3 Hup).
      rewrite (check_collision_hit g3 j Hhit). reflexivity. }
    rewrite (main_loop_frame enemy_image events inputs g _ Hrun Hf).
    apply main_loop_stopped. reflexivity.
  - rewrite trace_shutdown. simpl. rewrite <- !app_assoc. reflexivity.
  - intros g0 inputs0 H0.
    split; [apply main_loop_stopped, H0 | apply trace_shutdown].
Qed.

(** C10.  The held-key snapshot is assigned in the event loop, once per
    drained event, and nowhere else: after the events of a frame it is
    the snapshot taken with the last of them; a frame that drains no
    event leaves the variable alone, so that [Player.update] receives
    the snapshot of an earlier frame; and when the very first frame
    drains no event the variable is read before any assignment and the
    program fails. *)
Theorem pressed_keys_only_in_event_loop (player_image enemy_image : Surface) :
  (forall g events event keys,
     pressed_keys (handle_events enemy_image (events ++ [(event, keys)]) g)
       = Some keys) /\
  (forall g, handle_events enemy_image [] g = g) /\
  (forall g g' events, frame enemy_image events g = Ok g' ->
     pressed_keys g' = pressed_keys (handle_events enemy_image events g)) /\
  (forall g keys image rect,
     pressed_keys g = Some keys ->
     heap g !! player = Some (Player image rect) ->
     exists g1,
       player_update (handle_events enemy_image [] g) = Ok g1 /\
       heap g1 !! player = Some (Player image (Player_update keys rect))) /\
  (forall g, pressed_keys g = None ->
     frame enemy_image [] g = Raise UnboundLocalError) /\
  (forall r inputs,
     main player_image enemy_image r ([] :: inputs) = Failed UnboundLocalError).
Proof.
  repeat split.
  - intros g events event keys. rewrite handle_events_snoc. reflexivity.
  - intros g g' events Hf.
    apply frame_phases in Hf as (g1 & g2 & g3 & g4 & H1 & H2 & H3 & H4 & ->).
    destruct (player_update_fields _ _ H1) as (_ & _ & _ & K1 & _).
    destruct (update_each_fields _ _ _ H2) as (_ & _ & K2 & _).
    destruct (render_inv g2 g3 H3) as (tr & ->).
    destruct (check_collision_inv _ g4 H4) as [[_ ->] | [_ ->]]; simpl; congruence.
  - intros g keys image rect Hk Hp. simpl.
    unfold player_update. rewrite Hk, Hp. eexists. split; [reflexivity |].
    simpl. apply lookup_insert_eq.
  - intros g Hk. unfold frame, player_update. simpl. rewrite Hk. reflexivity.
Qed.

(** * Spawning *)

Section Spawn.

Variables player_image enemy_image : Surface.

Implicit Types (i j : nat) (g : Game) (events : FrameInput).

(** A new obstacle is far to the right: moving it once does not take
    its right edge below zero. *)
Lemma Enemy_init_stays (r : Random) :
  exists rect s r',
    Enemy_init enemy_image r = (Enemy enemy_image rect s, r') /\
    0 <= Rect.right rect - s.
Proof.
  unfold Enemy_init.
  destruct (randint (SCREEN_WIDTH + 20) (SCREEN_WIDTH + 100) r) as [x r1] eqn:Ex.
  destruct (randint 0 SCREEN_HEIGHT r1) as [y r2] eqn:Ey.
  destruct (randint 5 20 r2) as [s r3] eqn:Es.
  do 3 eexists. split; [reflexivity |].
  pose proof (randint_range (SCREEN_WIDTH + 20) (SCREEN_WIDTH + 100) r) as Bx.
  pose proof (randint_range 5 20 r2) as Bs.
  rewrite Ex in Bx. rewrite Es in Bs. simpl in Bx, Bs.
  pose proof (half_nonneg (surf_width enemy_image)).
  unfold get_rect_center, get_rect, Rect.set_center, Rect.right; simpl.
  unfold SCREEN_WIDTH in *. lia.
Qed.

Lemma lone_player g :
  wf g -> running g = true -> enemies g = [] -> all_sprites g = [player].
Proof.
  intros [_ _ _ W4 W5 _ W7] Hr He.
  specialize (W7 Hr). rewrite He in W4.
  destruct (all_sprites g) as [| a l]; [apply elem_of_nil in W7; contradiction |].
  assert (Ha : a = player).
  { destruct (W4 a) as [-> | Hc]; [apply elem_of_cons; auto | reflexivity |].
    apply elem_of_nil in Hc. contradiction. }
  subst a. destruct l as [| b l]; [reflexivity |].
  exfalso. apply NoDup_cons in W5 as [Hnb _]. apply Hnb.
  destruct (W4 b) as [-> | Hc];
    [apply elem_of_cons; right; apply elem_of_cons; auto
    | apply elem_of_cons; auto |].
  apply elem_of_nil in Hc. contradiction.
Qed.

Lemma add_enemy_spawns g :
  wf g -> enemies_stay (heap g) (enemies g) ->
  enemies_stay (heap (add_enemy enemy_image g))
               (enemies (add_enemy enemy_image g)) /\
  enemies (add_enemy enemy_image g) = enemies g ++ [next_id g] /\
  all_sprites (add_enemy enemy_image g) = all_sprites g ++ [next_id g].
Proof.
  intros Hg Hst. pose proof Hg as [W1 [W2a W2b] W3 W4 W5 W6 W7].
  assert (Hfresh : heap g !! next_id g = None) by (apply W6; lia).
  assert (Hna : next_id g ∉ all_sprites g).
  { intros Hc. exact (wf_allocated g _ Hg Hc Hfresh). }
  assert (Hne : next_id g ∉ enemies g) by (intros Hc; apply Hna, W3, Hc).
  unfold add_enemy.
  destruct (Enemy_init_stays (random g)) as (rect & s & r' & -> & Hfar).
  simpl. rewrite !add_absent by assumption.
  split; [| split; reflexivity].
  intros j Hj. apply elem_of_app in Hj as [Hj | Hj].
  - rewrite lookup_insert_ne by (intros <-; contradiction). apply Hst, Hj.
  - apply list_elem_of_singleton in Hj as ->.
    rewrite lookup_insert_eq. eauto.
Qed.

Lemma handle_event_spawns g input :
  wf g -> enemies_stay (heap g) (enemies g) ->
  enemies_stay (heap (handle_event enemy_image g input))
               (enemies (handle_event enemy_image g input)) /\
  length (enemies (handle_event enemy_image g input))
    = (length (enemies g) + if is_add_enemy (fst input) then 1 else 0)%nat /\
  length (all_sprites (handle_event enemy_image g input))
    = (length (all_sprites g) + if is_add_enemy (fst input) then 1 else 0)%nat.
Proof.
  intros Hg Hst. destruct input as [event keys].
  unfold handle_event, set_pressed_keys. cbn [heap enemies all_sprites fst].
  destruct (is_add_enemy event).
  - assert (Hg' : wf (if is_quit event then set_running false g else g))
      by (destruct (is_quit event); auto using wf_set_running_false).
    assert (Hst' : enemies_stay
              (heap (if is_quit event then set_running false g else g))
              (enemies (if is_quit event then set_running false g else g)))
      by (destruct (is_quit event); exact Hst).
    destruct (add_enemy_spawns _ Hg' Hst') as (S1 & E1 & A1).
    split; [exact S1 |]. rewrite E1, A1, !length_app.
    destruct (is_quit event); simpl; lia.
  - destruct (is_quit event); simpl; split; auto; lia.
Qed.

Lemma handle_events_spawn events : forall g,
  wf g -> enemies_stay (heap g) (enemies g) ->
  enemies_stay (heap (handle_events enemy_image events g))
               (enemies (handle_events enemy_image events g)) /\
  length (enemies (handle_events enemy_image events g))
    = (length (enemies g) + ticks events)%nat /\
  length (all_sprites (handle_events enemy_image events g))
    = (length (all_sprites g) + ticks events)%nat.
Proof.
  induction events as [| input events IH]; intros g Hg Hst.
  - unfold ticks; simpl. split; [exact Hst | lia].
  - destruct (handle_event_spawns g input Hg Hst) as (S1 & L1 & A1).
    destruct (IH (handle_event enemy_image g input)
                (wf_handle_event enemy_image g input Hg) S1) as (S2 & L2 & A2).
    split; [exact S2 |].
    change (handle_events enemy_image (input :: events) g)
      with (handle_events enemy_image events (handle_event enemy_image g input)).
    rewrite L2, A2, L1, A1. unfold ticks. rewrite filter_cons.
    destruct (is_add_enemy (fst input)) eqn:E.
    + destruct (decide (true = true)) as [_ | Hc]; [| congruence].
      simpl. lia.
    + destruct (decide (false = true)) as [Hc | _]; [discriminate |].
      simpl. lia.
Qed.

(** No obstacle that stays is removed by the pass. *)
Lemma update_each_stay l : forall g g',
  NoDup l -> enemies_stay (heap g) l ->
  update_each l g = Ok g' ->
  enemies g' = enemies g /\ all_sprites g' = all_sprites g.
Proof.
  induction l as [| i l IH]; intros g g' Hnd Hst H; simpl in H.
  - injection H as <-. auto.
  - apply bind_Ok in H as (g1 & H1 & H2).
    apply NoDup_cons in Hnd as [Hi Hnd].
    destruct (Hst i) as (im & rc & s & Hs & Hfar); [apply elem_of_cons; auto |].
    destruct (Enemy_update_Ok i g im rc s Hs) as (g2 & Hu2 & Hh & He & Ha & _).
    rewrite H1 in Hu2. injection Hu2 as <-.
    rewrite right_Enemy_move in He, Ha.
    replace (Rect.right rc - s <? 0) with false in He, Ha
      by (symmetry; apply Z.ltb_ge; lia).
    destruct (IH g1 g' Hnd) as (E2 & A2); [| exact H2 | split; congruence].
    intros j Hj. rewrite Hh.
    rewrite lookup_insert_ne by (intros <-; contradiction).
    apply Hst. apply elem_of_cons. auto.
Qed.

End Spawn.

(** * The registry *)

Lemma wf_registry_inv (g : Game) : wf g -> registry_inv g.
Proof.
  intros Hg. pose proof Hg as [_ _ W3 W4 _ _ _].
  split; [exact W3 | split; [| exact (wf_player_not_enemy g Hg)]].
  intros i Hi Hip. destruct (W4 i Hi); [contradiction | assumption].
Qed.

Lemma ticks_nil_events (events : FrameInput) : ticks events = 1%nat -> events <> [].
Proof. intros H ->. discriminate. Qed.

(** From a running state without obstacles, a frame that drains exactly
    one spawn-timer tick ends with one obstacle, and with two sprites to
    render unless the player was hit. *)
Lemma first_spawn_frame (player_image enemy_image : Surface)
    (g : Game) (events : FrameInput) :
  wf g -> running g = true -> enemies g = [] -> ticks events = 1%nat ->
  exists g3 hit g',
    frame_updates enemy_image events g = Ok g3 /\
    spritecollideany player (enemies g3) g3 = Ok hit /\
    frame enemy_image events g = Ok g' /\
    length (enemies g') = 1%nat /\
    (hit = None -> length (all_sprites g') = 2%nat).
Proof.
  intros Hg Hrun Hnone Hticks.
  pose proof (lone_player g Hg Hrun Hnone) as Hall.
  assert (Hst : enemies_stay (heap g) (enemies g)).
  { rewrite Hnone. intros i Hi. apply elem_of_nil in Hi. contradiction. }
  destruct (handle_events_spawn enemy_image events g Hg Hst) as (S0 & L0 & A0).
  rewrite Hnone, Hall, Hticks in *. simpl in L0, A0.
  pose proof (wf_handle_events enemy_image events g Hg) as W0.
  destruct (player_update_total _ W0
              (pressed_keys_handle_events enemy_image events g
                 (ticks_nil_events events Hticks))) as (g1 & H1).
  pose proof (wf_player_update _ _ H1 W0) as W1.
  destruct (player_update_fields _ _ H1) as (E1 & A1 & _ & _ & _ & _ & Hh1).
  destruct (enemies_update_ok g1 (wf_enemies _ W1)) as (g2 & H2 & _).
  pose proof (wf_update_each _ _ _ H2 W1) as W2.
  assert (S1 : enemies_stay (heap g1) (enemies g1)).
  { rewrite E1. intros i Hi. rewrite Hh1; [apply S0, Hi |].
    intros ->. exact (wf_player_not_enemy _ W0 Hi). }
  destruct (update_each_stay _ g1 g2 (proj1 (wf_enemies _ W1)) S1 H2) as (E2 & A2).
  destruct (render_total g2 W2) as (g3 & H3).
  pose proof (wf_render _ _ H3 W2) as W3.
  destruct (render_inv g2 g3 H3) as (tr & Hg3).
  destruct (spritecollideany_total g3 W3) as (hit & H4).
  assert (Hup : frame_updates enemy_image events g = Ok g3).
  { apply frame_updates_phases. eauto. }
  exists g3, hit, (present (match hit with Some _ => on_collision g3 | None => g3 end)).
  split; [exact Hup |]. split; [exact H4 |]. split.
  - rewrite (frame_after_updates enemy_image events g g3 Hup).
    unfold check_collision. rewrite H4. destruct hit; reflexivity.
  - assert (E3 : enemies g3 = enemies g2) by (rewrite Hg3; reflexivity).
    assert (A3 : all_sprites g3 = all_sprites g2) by (rewrite Hg3; reflexivity).
    split.
    + destruct hit; simpl.
      * rewrite (remove_absent player _ (wf_player_not_enemy _ W3)). congruence.
      * congruence.
    + intros ->. simpl. congruence.
Qed.

(** * The theorems at concrete inputs *)

Section Concrete.

Local Abbreviation player_image := player_75x25.
Local Abbreviation enemy_image := enemy_20x10.

Lemma spawned_enemies_ok : enemies_ok spawned.
Proof.
  split.
  - apply NoDup_singleton.
  - apply Forall_cons. split; [vm_compute; reflexivity | constructor].
Defined.


(** C1 as stated fails: in the frame that drains the quit event the
    obstacle spawned one frame earlier is still moved, from x = 805 to
    x = 800, after the events have been handled. *)
Lemma quit_frame_still_updates_enemies :
  exists g1 g2,
    frame enemy_image [(user_event 1, no_keys)]
      (main_init player_image (draws [0; 0; 0])) = Ok g1 /\
    running g1 = true /\
    has_quit [(quit_event, no_keys)] /\
    running (handle_events enemy_image [(quit_event, no_keys)] g1) = false /\
    heap (handle_events enemy_image [(quit_event, no_keys)] g1) !! 1%nat
      = Some (Enemy enemy_image (Rect.mk 805 (-5) 20 10) 5) /\
    frame enemy_image [(quit_event, no_keys)] g1 = Ok g2 /\
    heap g2 !! 1%nat = Some (Enemy enemy_image (Rect.mk 800 (-5) 20 10) 5).
Proof.
  eexists. eexists.
  split; [vm_compute; reflexivity |].
  split; [reflexivity |].
  split; [apply Exists_cons_hd; reflexivity |].
  split; [reflexivity |].
  split; [vm_compute; reflexivity |].
  split; [vm_compute; reflexivity |].
  vm_compute; reflexivity.
Qed.

Lemma before_hit_reachable : reachable player_image enemy_image before_hit.
Proof.
  apply (reachable_run_frames player_image enemy_image approach
           (main_init player_image (draws [0; 10; 15]))).
  - vm_compute. reflexivity.
  - apply reachable_init.
Defined.

Lemma collision_ends_loop_witness :
  exists g4,
    check_collision at_hit = Ok g4 /\
    all_sprites g4 = Group.remove player (all_sprites at_hit) /\
    (player ∉ all_sprites g4) /\
    trace g4 = trace at_hit ++ [collision_sound_play] /\
    running g4 = false /\
    heap g4 = heap at_hit /\ enemies g4 = enemies at_hit /\
    next_id g4 = next_id at_hit /\ pressed_keys g4 = pressed_keys at_hit /\
    random g4 = random at_hit /\
    main_loop enemy_image ([] :: [[(user_event 1, no_keys)]]) before_hit
      = Returned (shutdown (present g4)) /\
    trace (shutdown (present g4))
      = trace at_hit ++ [collision_sound_play; display_flip; clock_tick FRAME_RATE;
                         time_sleep 3; music_stop; mixer_quit] /\
    (forall g0 inputs0,
       running g0 = false ->
       main_loop enemy_image inputs0 g0 = Returned (shutdown g0) /\
       trace (shutdown g0) = trace g0 ++ [time_sleep 3; music_stop; mixer_quit]).
Proof.
  exact (collision_ends_loop player_image enemy_image before_hit at_hit
           [] [[(user_event 1, no_keys)]] 1%nat
           before_hit_reachable
           ltac:(vm_compute; reflexivity)
           ltac:(vm_compute; reflexivity)
           ltac:(vm_compute; reflexivity)).
Defined.

Lemma pressed_keys_only_in_event_loop_witness :
  (exists g1,
     player_update (handle_events enemy_image [] spawned) = Ok g1 /\
     heap g1 !! player
       = Some (Player player_image (Player_update no_keys (Rect.mk 0 0 75 25)))) /\
  frame enemy_image [] (main_init player_image (draws [])) = Raise UnboundLocalError.
Proof.
  destruct (pressed_keys_only_in_event_loop player_image enemy_image)
    as (_ & _ & _ & Hstale & Hfail & _).
  split.
  - exact (Hstale spawned no_keys player_image (Rect.mk 0 0 75 25)
             eq_refl ltac:(vm_compute; reflexivity)).
  - exact (Hfail (main_init player_image (draws [])) eq_refl).
Defined.

End Concrete.

(** * More on the player's update *)

(** The exact update in closed form. *)
Lemma Player_update_min_max (k : Keys) (r : Rect.t) :
  Player_update k r =
    Rect.mk
      (Z.min (Z.max 0 (Rect.x r + fst (displacement k)))
             (SCREEN_WIDTH - Rect.w r))
      (Z.min (Z.max 0 (Rect.y r + snd (displacement k)))
             (SCREEN_HEIGHT - Rect.h r))
      (Rect.w r) (Rect.h r).
Proof.
  rewrite Player_update_displacement. unfold Player_update_spec.
  destruct (displacement k) as [dx dy]. destruct r as [x y w h].
  unfold clamp_bottom, clamp_top, clamp_right, clamp_left,
    Rect.left, Rect.right, Rect.top, Rect.bottom,
    Rect.set_left, Rect.set_right, Rect.set_top, Rect.set_bottom,
    Rect.move_ip; simpl.
  destruct (x + dx <? 0) eqn:E1; simpl;
    [apply Z.ltb_lt in E1 | apply Z.ltb_ge in E1].
  all: match goal with
       | |- context [SCREEN_WIDTH <? ?a] => destruct (SCREEN_WIDTH <? a) eqn:E2
       end; simpl; [apply Z.ltb_lt in E2 | apply Z.ltb_ge in E2].
  all: destruct (y + dy <? 0) eqn:E3; simpl;
    [apply Z.ltb_lt in E3 | apply Z.ltb_ge in E3].
  all: match goal with
       | |- context [SCREEN_HEIGHT <? ?a] => destruct (SCREEN_HEIGHT <? a) eqn:E4
       end; simpl; [apply Z.ltb_lt in E4 | apply Z.ltb_ge in E4].
  all: f_equal; lia.
Qed.

Lemma displacement_range (k : Keys) :
  (fst (displacement k) = -5 \/ fst (displacement k) = 0 \/ fst (displacement k) = 5) /\
  (snd (displacement k) = -5 \/ snd (displacement k) = 0 \/ snd (displacement k) = 5).
Proof.
  unfold displacement; simpl.
  destruct (k K_RIGHT), (k K_LEFT), (k K_DOWN), (k K_UP); auto.
Qed.

(** [Player.update] in closed form: as long as the move and the clamps
    stay within the 32-bit range of the rectangle's coordinates, on each
    axis the new position is the old one plus the displacement of the
    keys, raised to 0 and then lowered to the last position at which the
    rectangle ends on the screen's edge.  The size is kept. *)
Theorem Player_update_closed_form (k : Keys) (r : Rect.t) :
  Rect32.move_fits (fst (displacement k)) (snd (displacement k)) r ->
  Player_update32 k r =
    Rect.mk
      (Z.min (Z.max 0 (Rect.x r + fst (displacement k)))
             (SCREEN_WIDTH - Rect.w r))
      (Z.min (Z.max 0 (Rect.y r + snd (displacement k)))
             (SCREEN_HEIGHT - Rect.h r))
      (Rect.w r) (Rect.h r).
Proof.
  intros H. rewrite (Player_update32_exact k r H).
  apply Player_update_min_max.
Qed.

Lemma Player_update_closed_form_witness :
  Player_update32 (held false false true false) (Rect.mk 3 590 75 25)
    = Rect.mk 0 575 75 25.
Proof.
  rewrite (Player_update_closed_form (held false false true false)
             (Rect.mk 3 590 75 25)).
  - reflexivity.
  - vm_compute. repeat split; discriminate.
Defined.



(** A rectangle wider than the screen cannot be kept on it: the clamp
    of the right edge comes after the one of the left edge and wins, so
    that after [Player.update] the right edge is on the screen's edge and
    the left edge is off the screen.  Likewise for a rectangle higher
    than the screen.  (The move and the clamps are taken to stay within
    the 32-bit range of the coordinates.) *)
Theorem Player_update_oversize (k : Keys) (r : Rect.t) :
  Rect32.move_fits (fst (displacement k)) (snd (displacement k)) r ->
  (SCREEN_WIDTH < Rect.w r ->
   Rect32.right (Player_update32 k r) = SCREEN_WIDTH /\
   Rect32.left (Player_update32 k r) < 0) /\
  (SCREEN_HEIGHT < Rect.h r ->
   Rect32.bottom (Player_update32 k r) = SCREEN_HEIGHT /\
   Rect32.top (Player_update32 k r) < 0).
Proof.
  intros H. rewrite (Player_update32_exact k r H), Player_update_min_max.
  destruct H as (_ & _ & _ & _ & Fw & Fh & _ & _).
  unfold Rect32.left, Rect32.right, Rect32.top, Rect32.bottom; simpl.
  split; intros Hbig.
  - rewrite Z.min_r by lia.
    rewrite wrap_representable
      by (unfold Rect32.representable, Rect32.int_min, Rect32.int_max,
            SCREEN_WIDTH in *; lia).
    lia.
  - rewrite (Z.min_r _ (SCREEN_HEIGHT - Rect.h r)) by lia.
    rewrite wrap_representable
      by (unfold Rect32.representable, Rect32.int_min, Rect32.int_max,
            SCREEN_HEIGHT in *; lia).
    lia.
Qed.

Lemma Player_update_oversize_witness :
  Rect32.right (Player_update32 no_keys (Rect.mk 0 0 1000 25)) = SCREEN_WIDTH /\
  Rect32.left (Player_update32 no_keys (Rect.mk 0 0 1000 25)) < 0.
Proof.
  apply (proj1 (Player_update_oversize no_keys (Rect.mk 0 0 1000 25)
                  ltac:(vm_compute; repeat split; discriminate))).
  unfold SCREEN_WIDTH; simpl. lia.
Defined.

(** * What the event handling leaves alone *)

Lemma add_enemy_fields (enemy_image : Surface) (g : Game) :
  heap (add_enemy enemy_image g)
    = <[next_id g := fst (Enemy_init enemy_image (random g))]> (heap g) /\
  next_id (add_enemy enemy_image g) = S (next_id g) /\
  enemies (add_enemy enemy_image g) = Group.add (next_id g) (enemies g) /\
  all_sprites (add_enemy enemy_image g) = Group.add (next_id g) (all_sprites g) /\
  running (add_enemy enemy_image g) = running g /\
  pressed_keys (add_enemy enemy_image g) = pressed_keys g /\
  trace (add_enemy enemy_image g) = trace g.
Proof.
  unfold add_enemy. destruct (Enemy_init enemy_image (random g)) as [e r].
  simpl. repeat split.
Qed.

Lemma ticks_cons (input : Event * Keys) (events : FrameInput) :
  ticks (input :: events)
  = ((if is_add_enemy (fst input) then 1 else 0) + ticks events)%nat.
Proof.
  unfold ticks. rewrite filter_cons.
  destruct (is_add_enemy (fst input)) eqn:E.
  - destruct (decide (true = true)) as [_ | Hc]; [reflexivity | congruence].
  - destruct (decide (false = true)) as [Hc | _]; [discriminate | reflexivity].
Qed.

(** One event: the objects that exist are not touched, at most one
    identity is handed out, and it enters both groups. *)
Lemma handle_event_facts (enemy_image : Surface) (g : Game) (input : Event * Keys) :
  let g' := handle_event enemy_image g input in
  let n := (if is_add_enemy (fst input) then 1 else 0)%nat in
  (forall j, (j < next_id g)%nat -> heap g' !! j = heap g !! j) /\
  next_id g' = (next_id g + n)%nat /\
  (forall j, j ∈ enemies g' <->
     j ∈ enemies g \/ (next_id g <= j < next_id g + n)%nat) /\
  (forall j, j ∈ all_sprites g' <->
     j ∈ all_sprites g \/ (next_id g <= j < next_id g + n)%nat) /\
  trace g' = trace g.
Proof.
  destruct input as [event keys]. unfold handle_event, set_pressed_keys.
  cbn [heap enemies all_sprites next_id trace fst].
  set (g0 := if is_quit event then set_running false g else g).
  assert (E : heap g0 = heap g /\ next_id g0 = next_id g /\
              enemies g0 = enemies g /\ all_sprites g0 = all_sprites g /\
              trace g0 = trace g)
    by (subst g0; destruct (is_quit event); simpl; auto).
  destruct E as (E1 & E2 & E3 & E4 & E5).
  destruct (is_add_enemy event).
  - destruct (add_enemy_fields enemy_image g0) as (F1 & F2 & F3 & F4 & _ & _ & F7).
    rewrite F1, F2, F3, F4, F7, E1, E2, E3, E4, E5.
    split; [intros j Hj; apply lookup_insert_ne; lia |].
    split; [lia |].
    split; [| split; [| reflexivity]]; intros j; rewrite elem_of_add;
      split; intros [H | H]; auto; try (right; lia); left; lia.
  - rewrite E1, E2, E3, E4, E5.
    split; [reflexivity |]. split; [lia |].
    split; [| split; [| reflexivity]]; intros j; split; auto;
      intros [H | H]; [assumption | lia | assumption | lia].
Qed.

Lemma handle_events_facts (enemy_image : Surface) (events : FrameInput) :
  forall g,
  (forall j, (j < next_id g)%nat ->
     heap (handle_events enemy_image events g) !! j = heap g !! j) /\
  next_id (handle_events enemy_image events g) = (next_id g + ticks events)%nat /\
  (forall j, j ∈ enemies (handle_events enemy_image events g) <->
     j ∈ enemies g \/ (next_id g <= j < next_id g + ticks events)%nat) /\
  (forall j, j ∈ all_sprites (handle_events enemy_image events g) <->
     j ∈ all_sprites g \/ (next_id g <= j < next_id g + ticks events)%nat) /\
  trace (handle_events enemy_image events g) = trace g.
Proof.
  induction events as [| input events IH]; intros g.
  - unfold ticks; simpl.
    split; [reflexivity |]. split; [lia |].
    split; [| split; [| reflexivity]]; intros j; split; auto;
      intros [H | H]; [assumption | lia | assumption | lia].
  - change (handle_events enemy_image (input :: events) g)
      with (handle_events enemy_image events (handle_event enemy_image g input)).
    destruct (handle_event_facts enemy_image g input) as (H1 & N1 & M1 & A1 & T1).
    destruct (IH (handle_event enemy_image g input)) as (H2 & N2 & M2 & A2 & T2).
    rewrite ticks_cons.
    split; [intros j Hj; rewrite H2 by lia; apply H1, Hj |].
    split; [lia |].
    split; [| split; [| congruence]]; intros j.
    + rewrite M2, M1, N1. split.
      * intros [[H | H] | H]; [left; exact H | right; lia | right; lia].
      * intros [H | H]; [left; left; exact H |].
        destruct (Nat.lt_ge_cases j
                    (next_id g + if is_add_enemy (fst input) then 1 else 0));
          [left; right; lia | right; lia].
    + rewrite A2, A1, N1. split.
      * intros [[H | H] | H]; [left; exact H | right; lia | right; lia].
      * intros [H | H]; [left; left; exact H |].
        destruct (Nat.lt_ge_cases j
                    (next_id g + if is_add_enemy (fst input) then 1 else 0));
          [left; right; lia | right; lia].
Qed.

(** An identity that denotes an object has been handed out. *)
Lemma wf_handed_out (g : Game) (j : nat) :
  wf g -> heap g !! j <> None -> (j < next_id g)%nat.
Proof.
  intros [_ _ _ _ _ W6 _] Hj.
  destruct (Nat.lt_ge_cases j (next_id g)) as [H | H]; [exact H |].
  exfalso. apply Hj, W6, H.
Qed.

Lemma wf_player_handed_out (g : Game) : wf g -> (player < next_id g)%nat.
Proof.
  intros Hg. apply wf_handed_out; [exact Hg |].
  destruct Hg as [W1 _ _ _ _ _ _].
  intros Hc. rewrite Hc in W1. discriminate.
Qed.

Lemma wf_enemy_handed_out (g : Game) (i : nat) :
  wf g -> i ∈ enemies g -> (i < next_id g)%nat /\ i ≠ player.
Proof.
  intros Hg Hi. split.
  - apply wf_handed_out; [exact Hg |].
    apply (wf_allocated g i Hg). destruct Hg as [_ _ W3 _ _ _ _]. auto.
  - intros ->. exact (wf_player_not_enemy g Hg Hi).
Qed.

Lemma player_update_heap (g g' : Game) :
  player_update g = Ok g' ->
  exists keys image rect,
    pressed_keys g = Some keys /\
    heap g !! player = Some (Player image rect) /\
    heap g' = <[player := Player image (Player_update keys rect)]> (heap g).
Proof.
  unfold player_update. intros H.
  destruct (pressed_keys g) as [keys |]; [| discriminate].
  destruct (heap g !! player) as [[image rect | ? ? ?] |]; try discriminate.
  injection H as <-. exists keys, image, rect. auto.
Qed.

(** The spawn position, the speed and the size of a new obstacle. *)
Lemma Enemy_init_bounds (image : Surface) (r r' : Random) (e : Sprite) :
  Enemy_init image r = (e, r') ->
  exists rect s,
    e = Enemy image rect s /\
    5 <= s <= 20 /\
    SCREEN_WIDTH + 20 <= Rect.centerx rect <= SCREEN_WIDTH + 100 /\
    0 <= Rect.centery rect <= SCREEN_HEIGHT /\
    Rect.w rect = Z.of_N (surf_width image) /\
    Rect.h rect = Z.of_N (surf_height image).
Proof.
  unfold Enemy_init.
  destruct (randint (SCREEN_WIDTH + 20) (SCREEN_WIDTH + 100) r) as [x r1] eqn:Ex.
  destruct (randint 0 SCREEN_HEIGHT r1) as [y r2] eqn:Ey.
  destruct (randint 5 20 r2) as [s r3] eqn:Es.
  intros H. injection H as <- _.
  pose proof (randint_range (SCREEN_WIDTH + 20) (SCREEN_WIDTH + 100) r) as Bx.
  pose proof (randint_range 0 SCREEN_HEIGHT r1) as By.
  pose proof (randint_range 5 20 r2) as Bs.
  rewrite Ex in Bx. rewrite Ey in By. rewrite Es in Bs. simpl in Bx, By, Bs.
  do 2 eexists. split; [reflexivity |].
  unfold get_rect_center, get_rect, Rect.set_center, Rect.centerx, Rect.centery;
    simpl.
  unfold SCREEN_WIDTH, SCREEN_HEIGHT in *. repeat split; lia.
Qed.

(** * Where the sprites are, in every state of the loop *)

Lemma on_screen_Player_update (k : Keys) (r : Rect.t) :
  0 <= Rect.w r <= SCREEN_WIDTH -> 0 <= Rect.h r <= SCREEN_HEIGHT ->
  on_screen (Player_update k r).
Proof.
  intros Hw Hh. rewrite Player_update_min_max.
  unfold on_screen, Rect.left, Rect.right, Rect.top, Rect.bottom; simpl. lia.
Qed.

Lemma player_on_screen_step (player_image enemy_image : Surface) (g g' : Game) :
  Z.of_N (surf_width player_image) <= SCREEN_WIDTH ->
  Z.of_N (surf_height player_image) <= SCREEN_HEIGHT ->
  wf g -> step enemy_image g g' ->
  player_on_screen player_image g -> player_on_screen player_image g'.
Proof.
  intros Hw Hh Hg Hstep (rect & Hp & Hon & Sw & Sh).
  destruct Hstep as [g input | g g' H | i g g' H | g g' H | g g' H | g].
  - exists rect. split; [| auto].
    destruct (handle_event_facts enemy_image g input) as (Hold & _).
    rewrite (Hold player (wf_player_handed_out g Hg)). exact Hp.
  - destruct (player_update_heap g g' H) as (keys & im & rc & _ & Hp' & Hh').
    rewrite Hp in Hp'. injection Hp' as <- <-.
    exists (Player_update keys rect).
    destruct (Player_update_size keys rect) as [Sw' Sh'].
    pose proof (N2Z.is_nonneg (surf_width player_image)).
    pose proof (N2Z.is_nonneg (surf_height player_image)).
    split; [rewrite Hh'; apply lookup_insert_eq |].
    split; [apply on_screen_Player_update; lia | split; congruence].
  - exists rect. split; [| auto].
    assert (Hip : player ≠ i).
    { intros <-. apply Enemy_update_is_Enemy in H. rewrite Hp in H. discriminate. }
    destruct (Enemy_update_other i player g g' H Hip) as (-> & _). exact Hp.
  - destruct (render_inv g g' H) as (tr & ->). exists rect. auto.
  - destruct (check_collision_inv g g' H) as [[_ ->] | [_ ->]]; exists rect; auto.
  - exists rect. auto.
Qed.

(** The player cannot move off the screen: when the player's image is
    no larger than the screen, then in every state the loop passes
    through the player's rectangle has the size of the image and lies on
    the screen. *)
Theorem player_stays_on_screen (player_image enemy_image : Surface) (g : Game) :
  Z.of_N (surf_width player_image) <= SCREEN_WIDTH ->
  Z.of_N (surf_height player_image) <= SCREEN_HEIGHT ->
  reachable player_image enemy_image g ->
  player_on_screen player_image g.
Proof.
  intros Hw Hh Hreach.
  induction Hreach as [r | g g' Hreach IH Hstep].
  - exists (get_rect player_image).
    pose proof (N2Z.is_nonneg (surf_width player_image)).
    pose proof (N2Z.is_nonneg (surf_height player_image)).
    split; [apply lookup_singleton_eq |].
    split; [| split; reflexivity].
    unfold on_screen, get_rect, Rect.left, Rect.right, Rect.top, Rect.bottom; simpl.
    unfold SCREEN_WIDTH, SCREEN_HEIGHT in *. lia.
  - exact (player_on_screen_step player_image enemy_image g g' Hw Hh
             (wf_reachable _ _ g Hreach) Hstep IH).
Qed.

Lemma enemy_in_lane_moved (image : Surface) (rect : Rect.t) (s : Z) :
  enemy_in_lane image (Some (Enemy image rect s)) ->
  0 <= Rect.right (Enemy_move rect s) ->
  enemy_in_lane image (Some (Enemy image (Enemy_move rect s) s)).
Proof.
  intros (rc & s' & E & Hs & Hr & Hx & Hy & Hw & Hh) Hr'.
  injection E as <- <-.
  exists (Enemy_move rect s), s. split; [reflexivity |].
  unfold Enemy_move, Rect.move_ip, Rect.centerx, Rect.centery in *; simpl.
  repeat split; try assumption; lia.
Qed.

Lemma enemies_in_lane_step (enemy_image : Surface) (g g' : Game) :
  wf g -> step enemy_image g g' ->
  (forall i, i ∈ enemies g -> enemy_in_lane enemy_image (heap g !! i)) ->
  forall i, i ∈ enemies g' -> enemy_in_lane enemy_image (heap g' !! i).
Proof.
  intros Hg Hstep Hlane.
  destruct Hstep as [g input | g g' H | j g g' H | g g' H | g g' H | g]; intros i Hi.
  - destruct (handle_event_facts enemy_image g input) as (Hold & _ & Hm & _).
    apply Hm in Hi as [Hi | Hi].
    + rewrite (Hold i (proj1 (wf_enemy_handed_out g i Hg Hi))). exact (Hlane i Hi).
    + destruct input as [event keys]. simpl in Hi.
      destruct (is_add_enemy event) eqn:Eadd; [| lia].
      assert (i = next_id g) as -> by lia.
      unfold handle_event, set_pressed_keys. cbn [heap]. rewrite Eadd.
      destruct (add_enemy_fields enemy_image
                  (if is_quit event then set_running false g else g)) as (F1 & _).
      rewrite F1.
      replace (next_id (if is_quit event then set_running false g else g))
        with (next_id g) by (destruct (is_quit event); reflexivity).
      rewrite lookup_insert_eq.
      destruct (Enemy_init enemy_image
                  (random (if is_quit event then set_running false g else g)))
        as [e r'] eqn:Einit.
      destruct (Enemy_init_bounds enemy_image _ r' e Einit)
        as (rect & s & -> & Hs & Hx & Hy & Hw & Hh).
      exists rect, s. simpl. split; [reflexivity |].
      pose proof (half_nonneg (surf_width enemy_image)).
      unfold Rect.centerx, Rect.right in *. rewrite Hw in *.
      unfold SCREEN_WIDTH in *. repeat split; try assumption; lia.
  - destruct (player_update_fields g g' H) as (E & _ & _ & _ & _ & _ & Hh).
    rewrite E in Hi.
    rewrite (Hh i (proj2 (wf_enemy_handed_out g i Hg Hi))). exact (Hlane i Hi).
  - destruct (is_Enemy_Some _ (Enemy_update_is_Enemy _ _ _ H)) as (im & rc & s & Hj).
    destruct (Enemy_update_Ok j g im rc s Hj) as (g2 & Hu2 & Hh & He & _).
    rewrite H in Hu2. injection Hu2 as <-.
    destruct (decide (i = j)) as [-> | Hij].
    + rewrite Hh, lookup_insert_eq.
      rewrite He in Hi.
      destruct (Rect.right (Enemy_move rc s) <? 0) eqn:E.
      * apply elem_of_remove in Hi as [_ Hc]. congruence.
      * apply Z.ltb_ge in E. pose proof (Hlane j Hi) as HL. rewrite Hj in HL.
        assert (im = enemy_image) as ->
          by (destruct HL as (? & ? & E' & _); congruence).
        apply enemy_in_lane_moved; assumption.
    + destruct (Enemy_update_other j i g g' H Hij) as (-> & Hm & _).
      apply Hlane, Hm, Hi.
  - destruct (render_inv g g' H) as (tr & ->). exact (Hlane i Hi).
  - destruct (check_collision_inv g g' H) as [[_ ->] | [_ ->]].
    + exact (Hlane i Hi).
    + simpl in *. apply elem_of_remove in Hi as [Hi _]. exact (Hlane i Hi).
  - exact (Hlane i Hi).
Qed.

(** Obstacles keep to their lane: in every state the loop passes
    through, every obstacle of the obstacle set is an enemy of the
    enemy's image and size, with a speed in [5, 20], its centre never
    right of SCREEN_WIDTH + 100 and at a height in [0, SCREEN_HEIGHT],
    and its right edge not negative. *)
Theorem enemies_stay_in_lane (player_image enemy_image : Surface) (g : Game) :
  reachable player_image enemy_image g ->
  forall i, i ∈ enemies g -> enemy_in_lane enemy_image (heap g !! i).
Proof.
  intros Hreach. induction Hreach as [r | g g' Hreach IH Hstep].
  - intros i Hi. apply elem_of_nil in Hi. contradiction.
  - exact (enemies_in_lane_step enemy_image g g'
             (wf_reachable _ _ g Hreach) Hstep IH).
Qed.

Lemma player_stays_on_screen_witness :
  player_on_screen player_75x25 before_hit.
Proof.
  apply (player_stays_on_screen player_75x25 enemy_20x10 before_hit).
  - vm_compute. discriminate.
  - vm_compute. discriminate.
  - exact before_hit_reachable.
Defined.

Lemma enemies_stay_in_lane_witness :
  enemy_in_lane enemy_20x10 (heap before_hit !! 1%nat).
Proof.
  apply (enemies_stay_in_lane player_75x25 enemy_20x10 before_hit
           before_hit_reachable 1%nat).
  assert (E : enemies before_hit = [1%nat]) by (vm_compute; reflexivity).
  rewrite E. apply list_elem_of_singleton. reflexivity.
Defined.

(** * What one frame does *)

Lemma frame_pressed_keys (enemy_image : Surface) (events : FrameInput) (g g' : Game) :
  frame enemy_image events g = Ok g' ->
  pressed_keys g' = pressed_keys (handle_events enemy_image events g).
Proof.
  intros Hf.
  apply frame_phases in Hf as (g1 & g2 & g3 & g4 & H1 & H2 & H3 & H4 & ->).
  destruct (player_update_fields _ _ H1) as (_ & _ & _ & K1 & _).
  destruct (update_each_fields _ _ _ H2) as (_ & _ & K2 & _).
  destruct (render_inv g2 g3 H3) as (tr & ->).
  destruct (check_collision_inv _ g4 H4) as [[_ ->] | [_ ->]]; simpl; congruence.
Qed.

(** However many events a frame drains, the player is moved once, by
    [Player.update] with the snapshot taken with the last event of the
    frame (or the one left by an earlier frame when there is no event);
    nothing else in the frame touches the player's rectangle. *)
Theorem frame_moves_player_once (player_image enemy_image : Surface)
    (g g' : Game) (events : FrameInput) :
  reachable player_image enemy_image g ->
  frame enemy_image events g = Ok g' ->
  exists keys image rect,
    pressed_keys (handle_events enemy_image events g) = Some keys /\
    heap g !! player = Some (Player image rect) /\
    heap g' !! player = Some (Player image (Player_update keys rect)) /\
    (forall evs ev k, events = evs ++ [(ev, k)] -> keys = k) /\
    (events = [] -> pressed_keys g = Some keys).
Proof.
  intros Hreach Hf. pose proof (wf_reachable _ _ g Hreach) as Hg.
  apply frame_phases in Hf as (g1 & g2 & g3 & g4 & H1 & H2 & H3 & H4 & ->).
  pose proof (wf_handle_events enemy_image events g Hg) as W0.
  pose proof (wf_player_update _ _ H1 W0) as W1.
  destruct (player_update_heap _ _ H1) as (keys & im & rect & Hk & Hp & Hh).
  destruct (handle_events_facts enemy_image events g) as (Hold & _).
  rewrite (Hold player (wf_player_handed_out g Hg)) in Hp.
  destruct (update_each_other _ g1 g2 player H2 (wf_player_not_enemy g1 W1))
    as (Hp2 & _).
  destruct (heap_after_updates g2 g3 g4 H3 H4) as (Hh' & _).
  exists keys, im, rect. split; [exact Hk |]. split; [exact Hp |].
  split; [rewrite Hh', Hp2, Hh; apply lookup_insert_eq |].
  split.
  - intros evs ev k ->. rewrite handle_events_snoc in Hk.
    rewrite pressed_keys_handle_event in Hk. congruence.
  - intros ->. exact Hk.
Qed.

Lemma frame_moves_player_once_witness :
  exists g' keys,
    frame enemy_20x10 [(key_event true K_RIGHT, held false false false true);
                       (key_event true K_DOWN, held false true false true)]
      (main_init player_75x25 (draws [])) = Ok g' /\
    keys = held false true false true /\
    heap g' !! player = Some (Player player_75x25 (Rect.mk 5 5 75 25)).
Proof.
  assert (Hf : exists g',
    frame enemy_20x10 [(key_event true K_RIGHT, held false false false true);
                       (key_event true K_DOWN, held false true false true)]
      (main_init player_75x25 (draws [])) = Ok g')
    by (eexists; vm_compute; reflexivity).
  destruct Hf as (g' & Hf).
  destruct (frame_moves_player_once player_75x25 enemy_20x10 _ g' _
              (reachable_init _ _ (draws [])) Hf)
    as (keys & im & rect & _ & Hp & Hp' & Hlast & _).
  exists g', keys. split; [exact Hf |].
  assert (Hk : keys = held false true false true)
    by exact (Hlast [(key_event true K_RIGHT, held false false false true)]
                (key_event true K_DOWN) _ eq_refl).
  split; [exact Hk |].
  vm_compute in Hp. injection Hp as <- <-.
  rewrite Hp', Hk. reflexivity.
Defined.

(** A frame moves every obstacle that is in the obstacle set when the
    frame starts exactly once, by its speed to the left, and the
    obstacle is in the two sets after the frame exactly if its right
    edge is then not negative: neither the events of the frame nor a
    collision take an obstacle out. *)
Theorem frame_moves_enemies_once (player_image enemy_image : Surface)
    (g g' : Game) (events : FrameInput) (i : nat)
    (image : Surface) (rect : Rect.t) (s : Z) :
  reachable player_image enemy_image g ->
  i ∈ enemies g -> heap g !! i = Some (Enemy image rect s) ->
  frame enemy_image events g = Ok g' ->
  heap g' !! i = Some (Enemy image (Enemy_move rect s) s) /\
  (i ∈ enemies g' <-> 0 <= Rect.right rect - s) /\
  (i ∈ all_sprites g' <-> 0 <= Rect.right rect - s).
Proof.
  intros Hreach Hi Hs Hf. pose proof (wf_reachable _ _ g Hreach) as Hg.
  apply frame_phases in Hf as (g1 & g2 & g3 & g4 & H1 & H2 & H3 & H4 & ->).
  pose proof (wf_handle_events enemy_image events g Hg) as W0.
  pose proof (wf_player_update _ _ H1 W0) as W1.
  destruct (wf_enemy_handed_out g i Hg Hi) as (Hlt & Hip).
  destruct (handle_events_facts enemy_image events g) as (Hold & _ & Hm & Ha & _).
  assert (Hi0 : i ∈ enemies (handle_events enemy_image events g))
    by (apply Hm; auto).
  assert (Ha0 : i ∈ all_sprites (handle_events enemy_image events g))
    by (apply Ha; left; apply (wf_sub g Hg), Hi).
  destruct (player_update_fields _ _ H1) as (E1 & A1 & _ & _ & _ & _ & Hh1).
  assert (Hs1 : heap g1 !! i = Some (Enemy image rect s))
    by (rewrite (Hh1 i Hip), (Hold i Hlt); exact Hs).
  rewrite <- E1 in Hi0. rewrite <- A1 in Ha0.
  destruct (update_each_at _ g1 g2 i image rect s
              (proj1 (wf_enemies g1 W1)) Hi0 Hs1 H2) as (Hs2 & M2 & A2).
  rewrite right_Enemy_move in M2, A2.
  destruct (heap_after_updates g2 g3 g4 H3 H4) as (Hh' & _).
  split; [rewrite Hh'; exact Hs2 |].
  destruct (render_inv g2 g3 H3) as (tr & ->).
  destruct (check_collision_inv _ g4 H4) as [[_ ->] | [_ ->]]; simpl;
    rewrite ?elem_of_remove, M2, A2; tauto.
Qed.

Lemma frame_moves_enemies_once_witness :
  exists g',
    frame enemy_20x10 [] before_hit = Ok g' /\
    heap g' !! 1%nat
      = Some (Enemy enemy_20x10 (Rect.mk 70 5 20 10) 20) /\
    (1%nat ∈ enemies g' <-> 0 <= 110 - 20).
Proof.
  assert (Hf : exists g', frame enemy_20x10 [] before_hit = Ok g')
    by (eexists; vm_compute; reflexivity).
  destruct Hf as (g' & Hf). exists g'. split; [exact Hf |].
  assert (E : enemies before_hit = [1%nat]) by (vm_compute; reflexivity).
  destruct (frame_moves_enemies_once player_75x25 enemy_20x10 before_hit g' []
              1%nat enemy_20x10 (Rect.mk 90 5 20 10) 20
              before_hit_reachable
              ltac:(rewrite E; apply list_elem_of_singleton; reflexivity)
              ltac:(vm_compute; reflexivity) Hf) as (H1 & H2 & _).
  split; [exact H1 | exact H2].
Defined.

(** The loop flag after a frame: it is on exactly if it was on before,
    no quit-equivalent event was drained and the collision test found
    nothing.  Nothing in a frame turns the flag on again. *)
Theorem frame_running (enemy_image : Surface) (g g' : Game) (events : FrameInput) :
  frame enemy_image events g = Ok g' ->
  exists g3 hit,
    frame_updates enemy_image events g = Ok g3 /\
    spritecollideany player (enemies g3) g3 = Ok hit /\
    running g' =
      running g && no_quit events &&
      match hit with Some _ => false | None => true end.
Proof.
  intros Hf.
  apply frame_phases in Hf as (g1 & g2 & g3 & g4 & H1 & H2 & H3 & H4 & ->).
  destruct (player_update_fields _ _ H1) as (_ & _ & R1 & _).
  destruct (update_each_fields _ _ _ H2) as (_ & R2 & _).
  pose proof (running_handle_events enemy_image events g) as R0.
  assert (Hup : frame_updates enemy_image events g = Ok g3)
    by (apply frame_updates_phases; eauto).
  destruct (render_inv g2 g3 H3) as (tr & Hg3).
  assert (R3 : running g3 = running g && no_quit events)
    by (rewrite Hg3; simpl; unfold no_quit; congruence).
  destruct (check_collision_inv _ g4 H4) as [[Hhit ->] | [[j Hhit] ->]].
  - exists g3, None. repeat split; try assumption.
    simpl. rewrite R3, andb_true_r. reflexivity.
  - exists g3, (Some j). repeat split; try assumption.
    simpl. rewrite andb_false_r. reflexivity.
Qed.

Lemma frame_running_witness :
  exists g',
    frame enemy_20x10 [] before_hit = Ok g' /\ running g' = false.
Proof.
  assert (Hf : exists g', frame enemy_20x10 [] before_hit = Ok g')
    by (eexists; vm_compute; reflexivity).
  destruct Hf as (g' & Hf). exists g'. split; [exact Hf |].
  destruct (frame_running enemy_20x10 before_hit g' [] Hf)
    as (g3 & hit & Hup & Hhit & ->).
  vm_compute in Hup. injection Hup as <-.
  vm_compute in Hhit. injection Hhit as <-. reflexivity.
Defined.

Lemma blits_cons (hp : gmap nat Sprite) (i : nat) (l : list nat) (s : Sprite) :
  hp !! i = Some s ->
  blits hp (i :: l) = blit (surface_of s) (rect_of s) :: blits hp l.
Proof. intros H. unfold blits. simpl. rewrite H. reflexivity. Qed.

Lemma blit_each_trace (l : list nat) : forall g g',
  blit_each l g = Ok g' ->
  g' = add_trace (blits (heap g) l) g /\
  length (blits (heap g) l) = length l.
Proof.
  induction l as [| i l IH]; intros g g' H; simpl in H.
  - injection H as <-. split; [| reflexivity].
    unfold add_trace, blits. simpl. rewrite app_nil_r. destruct g; reflexivity.
  - destruct (heap g !! i) as [s |] eqn:Hi; [| discriminate].
    destruct (IH _ _ H) as (-> & Hlen).
    rewrite (blits_cons (heap g) i l s Hi).
    change (heap (emit (blit (surface_of s) (rect_of s)) g)) with (heap g) in *.
    change (emit ?e g) with (add_trace [e] g).
    rewrite add_trace_add_trace. split; [reflexivity | simpl; congruence].
Qed.

(** What a frame shows and plays, in order: the background, then every
    sprite of the render set as the updates of the frame left it, one
    blit each in the order of insertion; then the collision sound if the
    collision test found something; then the flip and the tick.  The
    player hit in a frame is therefore still drawn in that frame, and an
    obstacle removed in a frame is not. *)
Theorem frame_trace (enemy_image : Surface) (g g' : Game) (events : FrameInput) :
  frame enemy_image events g = Ok g' ->
  exists g3 hit,
    frame_updates enemy_image events g = Ok g3 /\
    spritecollideany player (enemies g3) g3 = Ok hit /\
    trace g' =
      trace g ++ blit_background :: blits (heap g3) (all_sprites g3)
              ++ match hit with Some _ => [collision_sound_play] | None => [] end
              ++ [display_flip; clock_tick FRAME_RATE] /\
    length (blits (heap g3) (all_sprites g3)) = length (all_sprites g3).
Proof.
  intros Hf.
  apply frame_phases in Hf as (g1 & g2 & g3 & g4 & H1 & H2 & H3 & H4 & ->).
  destruct (handle_events_facts enemy_image events g) as (_ & _ & _ & _ & T0).
  destruct (player_update_fields _ _ H1) as (_ & _ & _ & _ & _ & T1 & _).
  destruct (update_each_fields _ _ _ H2) as (_ & _ & _ & _ & T2).
  assert (Hup : frame_updates enemy_image events g = Ok g3)
    by (apply frame_updates_phases; eauto).
  unfold render in H3.
  destruct (blit_each_trace _ _ _ H3) as (Hg3 & Hlen).
  change (heap (emit blit_background g2)) with (heap g2) in Hg3, Hlen.
  assert (Hh3 : heap g3 = heap g2) by (rewrite Hg3; reflexivity).
  assert (Ha3 : all_sprites g3 = all_sprites g2) by (rewrite Hg3; reflexivity).
  assert (T3 : trace g3 = trace g ++ blit_background
                                 :: blits (heap g3) (all_sprites g3)).
  { rewrite Hh3, Ha3, Hg3. simpl. rewrite <- app_assoc. simpl. congruence. }
  assert (Hlen3 : length (blits (heap g3) (all_sprites g3))
                  = length (all_sprites g3))
    by (rewrite Hh3, Ha3; exact Hlen).
  destruct (check_collision_inv _ g4 H4) as [[Hhit ->] | [[j Hhit] ->]].
  - exists g3, None. split; [exact Hup |]. split; [exact Hhit |].
    split; [| exact Hlen3].
    simpl. rewrite T3. rewrite <- !app_assoc. simpl. reflexivity.
  - exists g3, (Some j). split; [exact Hup |]. split; [exact Hhit |].
    split; [| exact Hlen3].
    simpl. rewrite T3. repeat (rewrite <- app_assoc; simpl). reflexivity.
Qed.

Lemma frame_trace_witness :
  exists g',
    frame enemy_20x10 [] before_hit = Ok g' /\
    trace g' =
      trace before_hit
        ++ [blit_background;
            blit player_75x25 (Rect.mk 0 0 75 25);
            blit enemy_20x10 (Rect.mk 70 5 20 10);
            collision_sound_play; display_flip; clock_tick FRAME_RATE].
Proof.
  assert (Hf : exists g', frame enemy_20x10 [] before_hit = Ok g')
    by (eexists; vm_compute; reflexivity).
  destruct Hf as (g' & Hf). exists g'. split; [exact Hf |].
  destruct (frame_trace enemy_20x10 before_hit g' [] Hf)
    as (g3 & hit & Hup & Hhit & -> & _).
  vm_compute in Hup. injection Hup as <-.
  vm_compute in Hhit. injection Hhit as <-.
  f_equal.
Defined.

(** What an ADD_ENEMY event creates: an enemy under the next identity,
    constructed by [Enemy()]. *)
Lemma handle_event_new (enemy_image : Surface) (g : Game)
    (event : Event) (keys : Keys) :
  is_add_enemy event = true ->
  exists rect s,
    heap (handle_event enemy_image g (event, keys)) !! next_id g
      = Some (Enemy enemy_image rect s) /\
    5 <= s <= 20 /\ 0 <= Rect.right rect - s.
Proof.
  intros Hadd. unfold handle_event. rewrite Hadd.
  set (gq := if is_quit event then set_running false g else g).
  assert (Hn : next_id gq = next_id g) by (unfold gq; destruct (is_quit event); reflexivity).
  destruct (add_enemy_fields enemy_image gq) as (Hh & _).
  change (heap (set_pressed_keys keys (add_enemy enemy_image gq)))
    with (heap (add_enemy enemy_image gq)).
  rewrite Hh, Hn, lookup_insert_eq.
  destruct (Enemy_init_stays enemy_image (random gq)) as (rect & s & r' & E & Hst).
  destruct (Enemy_init_bounds enemy_image (random gq) r' _ E)
    as (rect' & s' & E' & Bs & _).
  injection E' as <- <-.
  exists rect, s. rewrite E. auto.
Qed.

Lemma handle_events_new (enemy_image : Surface) (events : FrameInput) :
  forall g j,
  (next_id g <= j < next_id g + ticks events)%nat ->
  exists rect s,
    heap (handle_events enemy_image events g) !! j
      = Some (Enemy enemy_image rect s) /\
    5 <= s <= 20 /\ 0 <= Rect.right rect - s.
Proof.
  induction events as [| [event keys] events IH]; intros g j Hj.
  - unfold ticks in Hj. simpl in Hj. lia.
  - rewrite ticks_cons in Hj. simpl fst in Hj.
    change (handle_events enemy_image ((event, keys) :: events) g)
      with (handle_events enemy_image events
              (handle_event enemy_image g (event, keys))).
    destruct (handle_event_facts enemy_image g (event, keys)) as (_ & Hn & _).
    cbn [fst] in Hn.
    destruct (is_add_enemy event) eqn:Hadd.
    + destruct (Nat.eq_dec j (next_id g)) as [-> | Hne].
      * destruct (handle_events_facts enemy_image events
                    (handle_event enemy_image g (event, keys))) as (Hold & _).
        rewrite Hold by lia. exact (handle_event_new enemy_image g event keys Hadd).
      * apply IH. lia.
    + apply IH. lia.
Qed.

(** Obstacles come from spawn-timer ticks, one per tick.  Handling an
    ADD_ENEMY event creates one enemy, with a speed in [5, 20], under
    the next identity and adds it to the obstacle set and to the render
    set.  A frame hands out as many new identities as it drains ticks;
    every obstacle of the obstacle set after the frame was in the set
    before it or was created by one of these ticks; and from a state
    that the loop passes through, every identity handed out in the frame
    was unused before and names, after the frame, an enemy that is in
    both sets. *)
Theorem frame_spawns_per_tick (player_image enemy_image : Surface)
    (g g' : Game) (events : FrameInput) :
  frame enemy_image events g = Ok g' ->
  next_id g' = (next_id g + ticks events)%nat /\
  (forall i, i ∈ enemies g' ->
     i ∈ enemies g \/ (next_id g <= i < next_id g + ticks events)%nat) /\
  (ticks events = 0%nat -> forall i, i ∈ enemies g' -> i ∈ enemies g) /\
  (reachable player_image enemy_image g ->
   forall j, (next_id g <= j < next_id g + ticks events)%nat ->
     heap g !! j = None /\ (j ∉ enemies g) /\ (j ∉ all_sprites g) /\
     j ∈ enemies g' /\ j ∈ all_sprites g' /\
     exists rect s,
       heap g' !! j = Some (Enemy enemy_image rect s) /\ 5 <= s <= 20) /\
  (forall h event keys,
     is_add_enemy event = true ->
     next_id h ∈ enemies (handle_event enemy_image h (event, keys)) /\
     next_id h ∈ all_sprites (handle_event enemy_image h (event, keys)) /\
     next_id (handle_event enemy_image h (event, keys)) = S (next_id h) /\
     exists rect s,
       heap (handle_event enemy_image h (event, keys)) !! next_id h
         = Some (Enemy enemy_image rect s) /\ 5 <= s <= 20).
Proof.
  intros Hf.
  apply frame_phases in Hf as (g1 & g2 & g3 & g4 & H1 & H2 & H3 & H4 & ->).
  destruct (handle_events_facts enemy_image events g) as (_ & N0 & M0 & A0 & _).
  destruct (player_update_fields _ _ H1) as (E1 & A1 & _ & _ & N1 & _ & Hh1).
  destruct (update_each_fields _ _ _ H2) as (N2 & _).
  destruct (render_inv g2 g3 H3) as (tr & Hg3).
  assert (Hin : forall i, i ∈ enemies (present g4) ->
            i ∈ enemies g \/ (next_id g <= i < next_id g + ticks events)%nat).
  { intros i Hi. apply M0. rewrite <- E1.
    destruct (update_each_groups _ g1 g2 i H2) as (Hsh & _). apply Hsh.
    destruct (check_collision_inv _ g4 H4) as [[_ ->] | [_ ->]];
      rewrite Hg3 in Hi; simpl in Hi; [exact Hi |].
    apply elem_of_remove in Hi as [Hi _]. exact Hi. }
  split; [| split; [exact Hin | split; [| split]]].
  - destruct (check_collision_inv _ g4 H4) as [[_ ->] | [_ ->]];
      rewrite Hg3; simpl; congruence.
  - intros H0 i Hi. destruct (Hin i Hi) as [H | H]; [exact H | lia].
  - intros Hreach j Hj. pose proof (wf_reachable _ _ g Hreach) as Hg.
    pose proof (wf_handle_events enemy_image events g Hg) as W0.
    pose proof (wf_player_update _ _ H1 W0) as W1.
    assert (Hnone : heap g !! j = None) by (apply (wf_fresh g Hg); lia).
    assert (Hna : j ∉ all_sprites g).
    { intros Hc. exact (wf_allocated g j Hg Hc Hnone). }
    assert (Hne : j ∉ enemies g).
    { intros Hc. apply Hna, (wf_sub g Hg), Hc. }
    pose proof (wf_player_handed_out g Hg) as Hpl.
    assert (Hjp : j ≠ player) by lia.
    destruct (handle_events_new enemy_image events g j Hj)
      as (rect & s & Hs0 & Bs & Hst).
    assert (Hi0 : j ∈ enemies g1) by (rewrite E1; apply M0; auto).
    assert (Ha0 : j ∈ all_sprites g1) by (rewrite A1; apply A0; auto).
    assert (Hs1 : heap g1 !! j = Some (Enemy enemy_image rect s))
      by (rewrite (Hh1 j Hjp); exact Hs0).
    destruct (update_each_at _ g1 g2 j enemy_image rect s
                (proj1 (wf_enemies g1 W1)) Hi0 Hs1 H2) as (Hs2 & M2 & A2).
    rewrite right_Enemy_move in M2, A2.
    destruct (heap_after_updates g2 g3 g4 H3 H4) as (Hh' & _).
    assert (He2 : j ∈ enemies g2) by (apply M2; auto).
    assert (Ha2 : j ∈ all_sprites g2) by (apply A2; auto).
    split; [exact Hnone |]. split; [exact Hne |]. split; [exact Hna |].
    split; [| split].
    + destruct (check_collision_inv _ g4 H4) as [[_ ->] | [_ ->]];
        rewrite Hg3; simpl; rewrite ?elem_of_remove; auto.
    + destruct (check_collision_inv _ g4 H4) as [[_ ->] | [_ ->]];
        rewrite Hg3; simpl; rewrite ?elem_of_remove; auto.
    + exists (Enemy_move rect s), s. rewrite Hh'. auto.
  - intros h event keys Hadd.
    destruct (handle_event_facts enemy_image h (event, keys))
      as (_ & Hn & Hm & Ha & _).
    cbn [fst] in Hn, Hm, Ha. rewrite Hadd in Hn, Hm, Ha.
    split; [apply Hm; right; lia |]. split; [apply Ha; right; lia |].
    split; [lia |].
    destruct (handle_event_new enemy_image h event keys Hadd)
      as (rect & s & Hs & Bs & _).
    exists rect, s. auto.
Qed.

Lemma frame_spawns_per_tick_witness :
  exists g',
    frame enemy_20x10 [(user_event 1, no_keys); (user_event 2, no_keys);
                       (user_event 1, no_keys)]
      (main_init player_75x25 (draws [])) = Ok g' /\
    next_id g' = 3%nat /\
    1%nat ∈ enemies g' /\ 2%nat ∈ enemies g' /\
    1%nat ∈ all_sprites g' /\ 2%nat ∈ all_sprites g'.
Proof.
  assert (Hf : exists g',
    frame enemy_20x10 [(user_event 1, no_keys); (user_event 2, no_keys);
                       (user_event 1, no_keys)]
      (main_init player_75x25 (draws [])) = Ok g')
    by (eexists; vm_compute; reflexivity).
  destruct Hf as (g' & Hf). exists g'. split; [exact Hf |].
  destruct (frame_spawns_per_tick player_75x25 enemy_20x10 _ g' _ Hf)
    as (Hn & _ & _ & Hnew & _).
  specialize (Hnew (reachable_init player_75x25 enemy_20x10 (draws []))).
  split; [exact Hn |].
  destruct (Hnew 1%nat ltac:(vm_compute; lia)) as (_ & _ & _ & E1 & A1 & _).
  destruct (Hnew 2%nat ltac:(vm_compute; lia)) as (_ & _ & _ & E2 & A2 & _).
  auto.
Defined.

(** * The whole run *)

Lemma pressed_keys_kept (enemy_image : Surface) (events : FrameInput) (g : Game) :
  pressed_keys g <> None ->
  pressed_keys (handle_events enemy_image events g) <> None.
Proof.
  intros Hk. destruct events as [| input events]; [exact Hk |].
  apply pressed_keys_handle_events. discriminate.
Qed.

Lemma main_loop_no_failure (enemy_image : Surface) (inputs : list FrameInput) :
  forall g, wf g -> pressed_keys g <> None ->
  exists g', main_loop enemy_image inputs g = Returned g' \/
             main_loop enemy_image inputs g = Looping g'.
Proof.
  induction inputs as [| events inputs IH]; intros g Hg Hk; simpl.
  - destruct (running g); eauto.
  - destruct (running g); [| eauto].
    destruct (frame_total enemy_image events g Hg
                (pressed_keys_kept enemy_image events g Hk)) as (g' & Hf).
    rewrite Hf. apply IH.
    + exact (wf_frame enemy_image events g g' Hf Hg).
    + rewrite (frame_pressed_keys enemy_image events g g' Hf).
      exact (pressed_keys_kept enemy_image events g Hk).
Qed.

(** [main] raises an exception in one case only: the first frame drains
    no event, and the held-key snapshot is read before it was ever
    assigned.  In every other run, however long, every frame completes,
    and [main] returns or is still in the loop when the input ends. *)
Theorem main_fails_only_on_empty_first_frame (player_image enemy_image : Surface)
    (r : Random) (inputs : list FrameInput) (e : Error) :
  main player_image enemy_image r inputs = Failed e <->
  e = UnboundLocalError /\ exists rest, inputs = [] :: rest.
Proof.
  split.
  - intros Hm. destruct inputs as [| events rest]; [discriminate |].
    destruct events as [| input events].
    + unfold main in Hm. simpl in Hm. injection Hm as <-. eauto.
    + exfalso. unfold main in Hm.
      destruct (frame_total enemy_image (input :: events)
                  (main_init player_image r) (wf_main_init player_image r)
                  (pressed_keys_handle_events enemy_image (input :: events) _
                     ltac:(discriminate))) as (g' & Hf).
      rewrite (main_loop_frame enemy_image _ rest (main_init player_image r) g'
                 eq_refl Hf) in Hm.
      destruct (main_loop_no_failure enemy_image rest g') as (g'' & [H | H]).
      * exact (wf_frame enemy_image _ _ g' Hf (wf_main_init player_image r)).
      * rewrite (frame_pressed_keys enemy_image _ _ g' Hf).
        apply pressed_keys_handle_events. discriminate.
      * congruence.
      * congruence.
  - intros (-> & rest & ->). reflexivity.
Qed.

(** How long an obstacle lives: a new obstacle is still in the obstacle
    set after each of its first 41 updates, and it is gone once the
    number k of updates satisfies 5 * k > SCREEN_WIDTH + 100 + its
    width (from the 185th update on, for the 20 pixels of the declared
    shape). *)
Theorem Enemy_lifetime (image : Surface) (r r' : Random)
    (rect : Rect.t) (s : Z) (g : Game) (i : nat) (k : nat) :
  Enemy_init image r = (Enemy image rect s, r') ->
  enemies_ok g -> heap g !! i = Some (Enemy image rect s) -> i ∈ enemies g ->
  exists g',
    update_passes k g = Ok g' /\
    ((k <= 41)%nat -> i ∈ enemies g') /\
    (SCREEN_WIDTH + 100 + Z.of_N (surf_width image) < 5 * Z.of_nat k ->
     i ∉ enemies g').
Proof.
  intros Hinit Hg Hs Hin.
  destruct (Enemy_init_bounds image r r' _ Hinit)
    as (rect' & s' & E & Hsp & Hx & _ & Hw & _).
  injection E as <- <-.
  pose proof (half_nonneg (surf_width image)) as Hhalf.
  assert (Hr : SCREEN_WIDTH + 20 <= Rect.right rect
               <= SCREEN_WIDTH + 100 + Z.of_N (surf_width image)).
  { unfold Rect.centerx, Rect.right in *. rewrite Hw in *. lia. }
  unfold SCREEN_WIDTH in *.
  destruct (update_passes_ok k g Hg) as (g' & Hp & _).
  exists g'. split; [exact Hp |].
  destruct (update_passes_member k g g' i image rect s Hg Hs Hin
              ltac:(lia) ltac:(lia) Hp) as (M & _).
  split.
  - intros Hk. apply M. nia.
  - intros Hk Hc. apply M in Hc. nia.
Qed.

Lemma Enemy_lifetime_witness :
  exists g',
    update_passes 41 spawned = Ok g' /\ 1%nat ∈ enemies g'.
Proof.
  destruct (Enemy_lifetime enemy_20x10 (draws [0; 0; 0]) (draws [])
              (Rect.mk 810 (-5) 20 10) 5 spawned 1%nat 41%nat
              eq_refl spawned_enemies_ok
              ltac:(vm_compute; reflexivity)
              ltac:(apply list_elem_of_singleton; reflexivity))
    as (g' & Hp & Hin & _).
  exists g'. split; [exact Hp | apply Hin; lia].
Defined.

(** * The claims on obstacles and on quitting, in full *)

(** C3.  An obstacle is constructed with a speed s in [5, 20], which
    nothing changes afterwards.  After [k] calls of [enemies.update()]
    the obstacle is still in the obstacle set exactly if its right edge,
    s * k further left, is not negative, which is the case for each of
    the first 41 calls at least; and as long as it is in the set, its
    rectangle is the one it was spawned with, x reduced by exactly
    s * k, y and the size unchanged.  The passes always return. *)
Theorem Enemy_update_k_times (image : Surface) (r r' : Random)
    (rect : Rect.t) (s : Z) (g : Game) (i : nat) (k : nat) :
  Enemy_init image r = (Enemy image rect s, r') ->
  enemies_ok g -> heap g !! i = Some (Enemy image rect s) -> i ∈ enemies g ->
  5 <= s <= 20 /\
  exists g', update_passes k g = Ok g' /\
    (i ∈ enemies g' <-> 0 <= Rect.right rect - s * Z.of_nat k) /\
    ((k <= 41)%nat -> i ∈ enemies g') /\
    (i ∈ enemies g' ->
     heap g' !! i =
       Some (Enemy image
               (Rect.mk (Rect.x rect - s * Z.of_nat k) (Rect.y rect)
                        (Rect.w rect) (Rect.h rect)) s)).
Proof.
  intros Hinit Hg Hs Hin.
  destruct (Enemy_init_bounds image r r' _ Hinit)
    as (rect' & s' & E & Hsp & Hx & _ & Hw & _).
  injection E as <- <-.
  pose proof (half_nonneg (surf_width image)) as Hhalf.
  assert (Hr : SCREEN_WIDTH + 20 <= Rect.right rect).
  { unfold Rect.centerx, Rect.right in *. rewrite Hw in *. lia. }
  unfold SCREEN_WIDTH in Hr.
  split; [exact Hsp |].
  destruct (update_passes_ok k g Hg) as (g' & Hp & _).
  exists g'. split; [exact Hp |].
  destruct (update_passes_member k g g' i image rect s Hg Hs Hin
              ltac:(lia) ltac:(lia) Hp) as (M & _).
  split; [exact M |]. split.
  - intros Hk. apply M. nia.
  - intros Hin'.
    rewrite (update_passes_moved k g g' i image rect s Hg Hs Hp Hin').
    unfold Rect.move_ip. do 3 f_equal; lia.
Qed.

Lemma Enemy_update_k_times_witness :
  exists g',
    update_passes 3 spawned = Ok g' /\
    1%nat ∈ enemies g' /\
    heap g' !! 1%nat = Some (Enemy enemy_20x10 (Rect.mk 795 (-5) 20 10) 5).
Proof.
  destruct (Enemy_update_k_times enemy_20x10 (draws [0; 0; 0]) (draws [])
              (Rect.mk 810 (-5) 20 10) 5 spawned 1%nat 3%nat
              eq_refl spawned_enemies_ok
              ltac:(vm_compute; reflexivity)
              ltac:(apply list_elem_of_singleton; reflexivity))
    as (_ & g' & Hp & _ & Hin & Hmoved).
  exists g'. split; [exact Hp |].
  assert (H : 1%nat ∈ enemies g') by (apply Hin; lia).
  split; [exact H | exact (Hmoved H)].
Defined.

Lemma render_trace (g2 g3 : Game) :
  render g2 = Ok g3 ->
  trace g3 = trace g2 ++ blit_background :: blits (heap g2) (all_sprites g2) /\
  length (blits (heap g2) (all_sprites g2)) = length (all_sprites g2).
Proof.
  unfold render. intros H3.
  destruct (blit_each_trace _ _ _ H3) as (Hg3 & Hlen).
  change (heap (emit blit_background g2)) with (heap g2) in Hg3, Hlen.
  split; [| exact Hlen].
  rewrite Hg3. simpl. rewrite <- app_assoc. reflexivity.
Qed.

(** C1, as the code has it.  If a quit-equivalent event (the window
    closed, or ESC pressed) is among the events a frame drains, the loop
    state is Terminated once the events are handled and stays so; the
    rest of the frame still runs on the state the event handling left:
    the player's update, the pass of [enemies.update()], the rendering
    of the background and of every sprite, the collision test, the flip
    and the tick; and [main] leaves the loop after this frame, whatever
    input follows. *)
Theorem quit_ends_loop_after_frame (player_image enemy_image : Surface)
    (g : Game) (events : FrameInput) (inputs : list FrameInput) :
  reachable player_image enemy_image g -> running g = true ->
  has_quit events ->
  running (handle_events enemy_image events g) = false /\
  exists g1 g2 g3 g4,
    player_update (handle_events enemy_image events g) = Ok g1 /\
    enemies_update g1 = Ok g2 /\
    render g2 = Ok g3 /\
    trace g3 = trace g ++ blit_background :: blits (heap g2) (all_sprites g2) /\
    length (blits (heap g2) (all_sprites g2)) = length (all_sprites g2) /\
    check_collision g3 = Ok g4 /\
    frame enemy_image events g = Ok (present g4) /\
    trace (present g4) = trace g4 ++ [display_flip; clock_tick FRAME_RATE] /\
    running (present g4) = false /\
    main_loop enemy_image (events :: inputs) g
      = Returned (shutdown (present g4)).
Proof.
  intros Hreach Hrun Hq.
  pose proof (wf_reachable _ _ g Hreach) as Hg.
  pose proof (has_quit_stops enemy_image events g Hq) as Hstop.
  split; [exact Hstop |].
  assert (Hne : events <> []) by (intros ->; inversion Hq).
  destruct (frame_total enemy_image events g Hg
              (pressed_keys_handle_events enemy_image events g Hne)) as (g' & Hf).
  pose proof Hf as Hph.
  apply frame_phases in Hph as (g1 & g2 & g3 & g4 & H1 & H2 & H3 & H4 & ->).
  exists g1, g2, g3, g4.
  destruct (handle_events_facts enemy_image events g) as (_ & _ & _ & _ & T0).
  destruct (player_update_fields _ _ H1) as (_ & _ & R1 & _ & _ & T1 & _).
  destruct (update_each_fields _ _ _ H2) as (_ & R2 & _ & _ & T2).
  destruct (render_trace g2 g3 H3) as (T3 & Hlen).
  destruct (heap_after_updates g2 g3 g4 H3 H4) as (_ & Hr).
  assert (Hr' : running (present g4) = false) by (apply Hr; congruence).
  split; [exact H1 |]. split; [exact H2 |]. split; [exact H3 |].
  split; [rewrite T3; congruence |]. split; [exact Hlen |].
  split; [exact H4 |]. split; [exact Hf |].
  split; [simpl; rewrite <- app_assoc; reflexivity |].
  split; [exact Hr' |].
  rewrite (main_loop_frame enemy_image events inputs g _ Hrun Hf).
  apply main_loop_stopped. exact Hr'.
Qed.

Lemma quit_ends_loop_after_frame_witness :
  exists g',
    frame enemy_20x10 [(quit_event, no_keys)]
      (main_init player_75x25 (draws [])) = Ok g' /\
    trace g' =
      [set_timer ADD_ENEMY NEW_ENEMY_INTERVAL; blit_background;
       blit player_75x25 (Rect.mk 0 0 75 25);
       display_flip; clock_tick FRAME_RATE] /\
    running g' = false /\
    main player_75x25 enemy_20x10 (draws [])
      [[(quit_event, no_keys)]; [(user_event 1, no_keys)]]
      = Returned (shutdown g').
Proof.
  destruct (quit_ends_loop_after_frame player_75x25 enemy_20x10
              (main_init player_75x25 (draws []))
              [(quit_event, no_keys)] [[(user_event 1, no_keys)]]
              (reachable_init player_75x25 enemy_20x10 (draws []))
              eq_refl
              ltac:(apply Exists_cons_hd; reflexivity))
    as (_ & g1 & g2 & g3 & g4 & H1 & H2 & H3 & T3 & _ & H4 & Hf & T4 & Hr & Hm).
  exists (present g4).
  split; [exact Hf |]. split; [| split; [exact Hr | exact Hm]].
  rewrite T4.
  vm_compute in H1. injection H1 as <-.
  vm_compute in H2. injection H2 as <-.
  vm_compute in H3. injection H3 as <-.
  vm_compute in H4. injection H4 as <-.
  reflexivity.
Defined.

(** * The loop, statement by statement *)

Lemma add_enemy_stmts (enemy_image : Surface) (g : Game) :
  add_enemy enemy_image g
  = all_sprites_add (next_id g)
      (enemies_add (next_id g) (new_Enemy enemy_image g)).
Proof.
  unfold add_enemy, new_Enemy, all_sprites_add, enemies_add.
  destruct (Enemy_init enemy_image (random g)) as [e r]. reflexivity.
Qed.

Lemma wf_new_Enemy (enemy_image : Surface) (g : Game) :
  wf g ->
  wf (new_Enemy enemy_image g) /\
  is_Enemy (heap (new_Enemy enemy_image g) !! next_id g) = true /\
  (next_id g ∉ enemies (new_Enemy enemy_image g)) /\
  (next_id g ∉ all_sprites (new_Enemy enemy_image g)).
Proof.
  intros Hg. pose proof Hg as [W1 [W2a W2b] W3 W4 W5 W6 W7].
  assert (Hfresh : heap g !! next_id g = None) by (apply W6; lia).
  assert (Hna : next_id g ∉ all_sprites g).
  { intros Hc. exact (wf_allocated g _ Hg Hc Hfresh). }
  assert (Hne : next_id g ∉ enemies g) by (intros Hc; apply Hna, W3, Hc).
  assert (Hnp : next_id g ≠ player).
  { intros Hc. rewrite Hc in Hfresh. rewrite Hfresh in W1. discriminate. }
  unfold new_Enemy.
  destruct (Enemy_init_shape enemy_image (random g)) as (rect & s & r' & ->).
  simpl. split; [split; simpl |].
  - rewrite lookup_insert_ne by exact Hnp. exact W1.
  - split; simpl; [exact W2a |].
    apply Forall_forall. intros j Hj.
    rewrite lookup_insert_ne by (intros <-; contradiction).
    rewrite Forall_forall in W2b. auto.
  - exact W3.
  - exact W4.
  - exact W5.
  - intros j Hj. rewrite lookup_insert_ne by lia. apply W6. lia.
  - exact W7.
  - rewrite lookup_insert_eq. auto.
Qed.

Lemma wf_both_added (i : nat) (g0 : Game) :
  wf g0 -> is_Enemy (heap g0 !! i) = true ->
  wf (all_sprites_add i (enemies_add i g0)).
Proof.
  intros [W1 [W2a W2b] W3 W4 W5 W6 W7] Hi.
  split; simpl.
  - exact W1.
  - split; simpl; [apply NoDup_add; exact W2a |].
    apply Forall_forall. intros j Hj. apply elem_of_add in Hj as [-> | Hj].
    + exact Hi.
    + rewrite Forall_forall in W2b. auto.
  - intros j Hj. apply elem_of_add. apply elem_of_add in Hj as [-> | Hj]; auto.
  - intros j Hj. apply elem_of_add in Hj as [-> | Hj].
    + right. apply elem_of_add. auto.
    + destruct (W4 j Hj) as [-> | He]; [auto |].
      right. apply elem_of_add. auto.
  - apply NoDup_add. exact W5.
  - exact W6.
  - intros Hr. apply elem_of_add. auto.
Qed.

(** Every statement takes a state that is as its point requires to one
    that is as the next point requires. *)
Lemma wf_at_stmt (enemy_image : Surface) (pc pc' : Point) (g g' : Game) :
  stmt enemy_image pc g pc' g' -> wf_at pc g -> wf_at pc' g'.
Proof.
  intros Hs Hw. destruct Hs; simpl in *.
  - exact Hw.
  - exact Hw.
  - destruct (is_quit event); auto using wf_set_running_false.
  - exact Hw.
  - exact (wf_new_Enemy enemy_image g Hw).
  - exists g. destruct Hw as (Hg & Hi & He & Ha). auto.
  - destruct Hw as (g0 & Hg0 & Hi & _ & _ & ->).
    exact (wf_both_added i g0 Hg0 Hi).
  - apply wf_set_pressed_keys, Hw.
  - eapply wf_player_update; eassumption.
  - exact Hw.
  - eapply wf_Enemy_update; eassumption.
  - exact Hw.
  - apply wf_emit, Hw.
  - apply wf_emit, Hw.
  - exact Hw.
  - exists g. auto.
  - exact Hw.
  - destruct Hw as (g0 & Hg0 & ->). exists g0. auto.
  - destruct Hw as (g0 & Hg0 & ->). exact (wf_on_collision g0 Hg0).
  - apply wf_emit, Hw.
  - apply wf_emit, Hw.
  - apply wf_emit, Hw.
  - apply wf_emit, Hw.
  - apply wf_emit, Hw.
Qed.

Lemma wf_at_passes (player_image enemy_image : Surface) (pc : Point) (g : Game) :
  passes player_image enemy_image pc g -> wf_at pc g.
Proof.
  induction 1 as [r | pc g pc' g' _ IH Hs].
  - exact (wf_main_init player_image r).
  - exact (wf_at_stmt enemy_image pc pc' g g' Hs IH).
Qed.

(** ** The frames of the model are runs of statements *)

Section Adequacy.

Variables player_image enemy_image : Surface.

Local Abbreviation passes := (passes player_image enemy_image).

Lemma passes_handle_event (g : Game) (input : Event * Keys) :
  passes at_events g -> passes at_events (handle_event enemy_image g input).
Proof.
  intros Hp. destruct input as [event keys]. unfold handle_event.
  assert (H1 : passes (at_add_test event keys)
                 (if is_quit event then set_running false g else g))
    by (eapply passes_stmt; [exact Hp | apply stmt_quit_test]).
  set (gq := if is_quit event then set_running false g else g) in *.
  destruct (is_add_enemy event) eqn:Eadd.
  - rewrite add_enemy_stmts.
    eapply passes_stmt; [| apply stmt_get_pressed].
    eapply passes_stmt; [| apply stmt_all_sprites_add].
    eapply passes_stmt; [| apply stmt_enemies_add].
    eapply passes_stmt; [exact H1 | apply stmt_new_Enemy; exact Eadd].
  - eapply passes_stmt; [| apply stmt_get_pressed].
    eapply passes_stmt; [exact H1 | apply stmt_no_add; exact Eadd].
Qed.

Lemma passes_handle_events (events : FrameInput) : forall g,
  passes at_events g -> passes at_events (handle_events enemy_image events g).
Proof.
  induction events as [| input events IH]; intros g Hp; simpl; [exact Hp |].
  apply IH, passes_handle_event, Hp.
Qed.

Lemma passes_update_each (l : list nat) : forall g g',
  passes (in_enemies_update l) g -> update_each l g = Ok g' ->
  passes (in_enemies_update []) g'.
Proof.
  induction l as [| i l IH]; intros g g' Hp H; simpl in H.
  - injection H as <-. exact Hp.
  - apply bind_Ok in H as (g1 & H1 & H2).
    apply (IH g1 g'); [| exact H2].
    eapply passes_stmt; [exact Hp | apply stmt_Enemy_update; exact H1].
Qed.

Lemma passes_blit_each (l : list nat) : forall g g',
  passes (in_blits l) g -> blit_each l g = Ok g' -> passes (in_blits []) g'.
Proof.
  induction l as [| i l IH]; intros g g' Hp H; simpl in H.
  - injection H as <-. exact Hp.
  - destruct (heap g !! i) as [s |] eqn:Hi; [| discriminate].
    apply (IH (emit (blit (surface_of s) (rect_of s)) g) g'); [| exact H].
    eapply passes_stmt; [exact Hp | apply stmt_blit; exact Hi].
Qed.

(** The part of a frame before the collision test is a run of the
    statements from the events to line 351. *)
Lemma passes_frame_updates (events : FrameInput) (g g3 : Game) :
  passes at_events g -> frame_updates enemy_image events g = Ok g3 ->
  passes at_collision_test g3.
Proof.
  intros Hp Hf.
  apply frame_updates_phases in Hf as (g1 & g2 & H1 & H2 & H3).
  pose proof (passes_handle_events events g Hp) as P0.
  assert (P1 : passes at_enemies_update g1)
    by (eapply passes_stmt; [exact P0 | apply stmt_player_update; exact H1]).
  assert (P2 : passes (in_enemies_update []) g2).
  { apply (passes_update_each (enemies g1) g1 g2); [| exact H2].
    eapply passes_stmt; [exact P1 | apply stmt_enemies_update]. }
  assert (P3 : passes (in_blits []) g3).
  { apply (passes_blit_each (all_sprites g2) (emit blit_background g2) g3);
      [| exact H3].
    eapply passes_stmt; [| apply stmt_blit_background].
    eapply passes_stmt; [exact P2 | apply stmt_enemies_updated]. }
  eapply passes_stmt; [exact P3 | apply stmt_blits_done].
Qed.

(** A frame of the model is a run of the statements of the loop body,
    from the events to the head of the loop. *)
Lemma passes_frame (events : FrameInput) (g g' : Game) :
  passes at_events g -> frame enemy_image events g = Ok g' ->
  passes at_while g'.
Proof.
  intros Hp Hf.
  apply frame_phases in Hf as (g1 & g2 & g3 & g4 & H1 & H2 & H3 & H4 & ->).
  assert (P4 : passes at_collision_test g3).
  { apply (passes_frame_updates events g g3 Hp).
    apply frame_updates_phases. eauto. }
  assert (P5 : passes at_flip g4).
  { destruct (check_collision_inv g3 g4 H4) as [[Hmiss ->] | [[j Hhit] ->]].
    - eapply passes_stmt; [exact P4 | apply stmt_no_collision; exact Hmiss].
    - unfold on_collision.
      eapply passes_stmt; [| apply stmt_running_False].
      eapply passes_stmt; [| apply stmt_collision_sound].
      eapply passes_stmt; [exact P4 | eapply stmt_kill; exact Hhit]. }
  unfold present.
  eapply passes_stmt; [| apply stmt_tick].
  eapply passes_stmt; [exact P5 | apply stmt_flip].
Qed.

Lemma passes_loop_frame (events : FrameInput) (g g' : Game) :
  passes at_while g -> running g = true ->
  frame enemy_image events g = Ok g' -> passes at_while g'.
Proof.
  intros Hp Hr Hf. apply (passes_frame events g g'); [| exact Hf].
  eapply passes_stmt; [exact Hp | apply stmt_while_true; exact Hr].
Qed.



End Adequacy.

(** ** The registry, statement by statement *)

Lemma registry_inv_kill_player (g0 : Game) :
  wf g0 -> registry_inv (kill player g0).
Proof.
  intros Hg0. exact (wf_registry_inv _ (wf_kill_player g0 Hg0)).
Qed.

Lemma registry_but_enemies_add (i : nat) (g0 : Game) :
  wf g0 -> is_Enemy (heap g0 !! i) = true -> (i ∉ all_sprites g0) ->
  registry_but i (enemies_add i g0).
Proof.
  intros Hg0 Hi Ha. pose proof Hg0 as [W1 _ W3 W4 _ _ _].
  assert (Hip : i ≠ player).
  { intros ->. destruct (heap g0 !! player) as [[? ? | ? ? ?] |];
      simpl in W1, Hi; discriminate. }
  unfold registry_but; simpl. repeat split.
  - apply elem_of_add. auto.
  - exact Ha.
  - intros j Hj Hji. apply elem_of_add in Hj as [-> | Hj]; [congruence | auto].
  - intros j Hj Hjp. apply elem_of_add. right.
    destruct (W4 j Hj); [contradiction | assumption].
  - intros Hp. apply elem_of_add in Hp as [Hp | Hp]; [congruence |].
    exact (wf_player_not_enemy g0 Hg0 Hp).
Qed.

Lemma registry_but_broken (i : nat) (g : Game) :
  registry_but i g -> ~ registry_inv g.
Proof. intros (Hi & Ha & _) (Hsub & _). exact (Ha (Hsub i Hi)). Qed.

Lemma registry_wf_at (pc : Point) (g : Game) : wf_at pc g -> registry_at pc g.
Proof.
  destruct pc; simpl; try exact (wf_registry_inv g).
  - intros (Hg & _). exact (wf_registry_inv g Hg).
  - intros (g0 & Hg0 & Hi & _ & Ha & ->).
    exact (registry_but_enemies_add new_enemy g0 Hg0 Hi Ha).
  - intros (g0 & Hg0 & ->). exact (registry_inv_kill_player g0 Hg0).
  - intros (g0 & Hg0 & ->). exact (registry_inv_kill_player g0 Hg0).
Qed.


(** Every ADD_ENEMY event takes [main] through the state between the
    two [add]s. *)
Lemma passes_between_adds (player_image enemy_image : Surface)
    (g : Game) (event : Event) (keys : Keys) :
  passes player_image enemy_image at_events g ->
  is_add_enemy event = true ->
  passes player_image enemy_image
    (at_all_sprites_add
       (next_id (if is_quit event then set_running false g else g)) keys)
    (enemies_add
       (next_id (if is_quit event then set_running false g else g))
       (new_Enemy enemy_image
          (if is_quit event then set_running false g else g))).
Proof.
  intros Hp Hadd.
  eapply passes_stmt; [| apply stmt_enemies_add].
  eapply passes_stmt; [| apply stmt_new_Enemy; exact Hadd].
  eapply passes_stmt; [exact Hp | apply stmt_quit_test].
Qed.

Lemma passes_main_init_events (player_image enemy_image : Surface) (r : Random) :
  passes player_image enemy_image at_events (main_init player_image r).
Proof.
  eapply passes_stmt; [apply passes_init | apply stmt_while_true; reflexivity].
Qed.

(** C9.  The registry invariant (every obstacle of the obstacle set is
    in the render set, the render set holds only the player and
    obstacles of the obstacle set, the player is not in the obstacle
    set) holds at every point between two statements of [main] but one:
    between [enemies.add(new_enemy)] and [all_sprites.add(new_enemy)]
    the new obstacle is in the obstacle set and not in the render set,
    the invariant fails, and it holds for all other sprites.  Every
    ADD_ENEMY event takes [main] through such a state.  The invariant
    holds at the end of every step and of every frame.  Starting from a
    running state with no obstacle, the frame that drains exactly one
    spawn-timer tick returns, and after it the obstacle set has size 1
    and, if the collision test found no overlap, the render set has
    size 2. *)
Theorem registry_invariant (player_image enemy_image : Surface) :
  (forall pc g, passes player_image enemy_image pc g -> registry_at pc g) /\
  (forall i keys g,
     passes player_image enemy_image (at_all_sprites_add i keys) g ->
     i ∈ enemies g /\ (i ∉ all_sprites g) /\ ~ registry_inv g) /\
  (forall g event keys,
     passes player_image enemy_image at_events g ->
     is_add_enemy event = true ->
     exists i g',
       passes player_image enemy_image (at_all_sprites_add i keys) g' /\
       ~ registry_inv g') /\
  (forall g events g',
     passes player_image enemy_image at_while g -> running g = true ->
     frame enemy_image events g = Ok g' ->
     passes player_image enemy_image at_while g' /\ registry_inv g') /\
  (forall g, reachable player_image enemy_image g -> registry_inv g) /\
  (forall r inputs g,
     run_frames enemy_image inputs (main_init player_image r) = Ok g ->
     registry_inv g) /\
  (forall r,
     passes player_image enemy_image at_while (main_init player_image r) /\
     reachable player_image enemy_image (main_init player_image r) /\
     running (main_init player_image r) = true /\
     enemies (main_init player_image r) = [] /\
     all_sprites (main_init player_image r) = [player]) /\
  (forall g events,
     reachable player_image enemy_image g ->
     running g = true -> enemies g = [] -> ticks events = 1%nat ->
     exists g3 hit g',
       frame_updates enemy_image events g = Ok g3 /\
       spritecollideany player (enemies g3) g3 = Ok hit /\
       frame enemy_image events g = Ok g' /\
       reachable player_image enemy_image g' /\
       length (enemies g') = 1%nat /\
       (hit = None -> length (all_sprites g') = 2%nat)).
Proof.
  assert (Hat : forall pc g,
            passes player_image enemy_image pc g -> registry_at pc g).
  { intros pc g Hp. apply registry_wf_at.
    exact (wf_at_passes player_image enemy_image pc g Hp). }
  split; [exact Hat |].
  split; [| split; [| split; [| split; [| split; [| split]]]]].
  - intros i keys g Hp. pose proof (Hat _ g Hp) as Hb. simpl in Hb.
    pose proof (registry_but_broken i g Hb) as Hn.
    destruct Hb as (Hi & Ha & _). auto.
  - intros g event keys Hp Hadd.
    pose proof (passes_between_adds player_image enemy_image g event keys
                  Hp Hadd) as Hq.
    eexists. eexists. split; [exact Hq |].
    apply (registry_but_broken _ _ (Hat _ _ Hq)).
  - intros g events g' Hp Hr Hf.
    pose proof (passes_loop_frame player_image enemy_image events g g'
                  Hp Hr Hf) as Hq.
    split; [exact Hq | exact (Hat _ _ Hq)].
  - intros g Hg. apply wf_registry_inv. exact (wf_reachable _ _ g Hg).
  - intros r inputs g Hrun. apply wf_registry_inv.
    apply (wf_reachable player_image enemy_image).
    exact (reachable_run_frames _ _ inputs _ g Hrun (reachable_init _ _ r)).
  - intros r. split; [apply passes_init |].
    split; [apply reachable_init | repeat split].
  - intros g events Hreach Hrun Hnone Hticks.
    destruct (first_spawn_frame player_image enemy_image g events
                (wf_reachable _ _ g Hreach) Hrun Hnone Hticks)
      as (g3 & hit & g' & Hup & Hhit & Hf & Le & La).
    exists g3, hit, g'. repeat split; try assumption.
    exact (reachable_frame player_image enemy_image events g g' Hf Hreach).
Qed.

Lemma registry_invariant_witness :
  exists g',
    frame enemy_20x10 [(user_event 1, no_keys)]
      (main_init player_75x25 (draws [0; 0; 0])) = Ok g' /\
    passes player_75x25 enemy_20x10 at_while g' /\
    registry_inv g' /\
    length (enemies g') = 1%nat /\ length (all_sprites g') = 2%nat.
Proof.
  destruct (registry_invariant player_75x25 enemy_20x10)
    as (_ & _ & _ & Hframe & _ & _ & Hinit & Hspawn).
  destruct (Hinit (draws [0; 0; 0])) as (Hpass & Hreach & Hrun & Hnone & _).
  destruct (Hspawn (main_init player_75x25 (draws [0; 0; 0]))
              [(user_event 1, no_keys)] Hreach Hrun Hnone eq_refl)
    as (g3 & hit & g' & Hup & Hhit & Hf & Hreach' & Le & La).
  destruct (Hframe _ _ g' Hpass Hrun Hf) as (Hpass' & Hinv).
  exists g'. split; [exact Hf |]. split; [exact Hpass' |].
  split; [exact Hinv |]. split; [exact Le |]. apply La.
  vm_compute in Hup. injection Hup as <-.
  vm_compute in Hhit. injection Hhit as <-. reflexivity.
Defined.

(** C9 as stated fails: while the first ADD_ENEMY event is handled,
    after [enemies.add(new_enemy)] and before
    [all_sprites.add(new_enemy)], the obstacle set is [1] and the render
    set holds the player only. *)
Lemma registry_broken_between_adds :
  passes player_75x25 enemy_20x10 (at_all_sprites_add 1 no_keys) between_adds /\
  enemies between_adds = [1%nat] /\
  all_sprites between_adds = [player] /\
  ~ registry_inv between_adds.
Proof.
  split; [| split; [reflexivity | split; [reflexivity |]]].
  - exact (passes_between_adds player_75x25 enemy_20x10
             (main_init player_75x25 (draws [0; 0; 0])) (user_event 1) no_keys
             (passes_main_init_events player_75x25 enemy_20x10 (draws [0; 0; 0]))
             eq_refl).
  - intros (Hsub & _).
    assert (H1 : 1%nat ∈ enemies between_adds)
      by (apply list_elem_of_singleton; reflexivity).
    apply Hsub in H1. apply list_elem_of_singleton in H1. discriminate.
Qed.



(** * The rectangles of the game stay within the 32-bit range *)

Lemma on_screen_move_fits (k : Keys) (r : Rect.t) :
  on_screen r -> 0 <= Rect.w r <= SCREEN_WIDTH -> 0 <= Rect.h r <= SCREEN_HEIGHT ->
  Rect32.move_fits (fst (displacement k)) (snd (displacement k)) r.
Proof.
  intros (H1 & H2 & H3 & H4) Hw Hh.
  destruct (displacement_range k) as (Dx & Dy).
  unfold Rect32.move_fits, Rect32.representable, Rect32.int_min, Rect32.int_max.
  unfold Rect.left, Rect.right, Rect.top, Rect.bottom,
    SCREEN_WIDTH, SCREEN_HEIGHT in *.
  lia.
Qed.

Lemma in_lane_Enemy_move32 (image : Surface) (rect : Rect.t) (s : Z) :
  Z.of_N (surf_width image) <= SCREEN_WIDTH ->
  Z.of_N (surf_height image) <= SCREEN_HEIGHT ->
  enemy_in_lane image (Some (Enemy image rect s)) ->
  Enemy_move32 rect s = Enemy_move rect s /\
  Rect32.right (Enemy_move32 rect s) = Rect.right (Enemy_move rect s).
Proof.
  intros Hw Hh (rc & s' & E & Hs & Hr & Hx & Hy & Sw & Sh).
  injection E as <- <-.
  pose proof (N2Z.is_nonneg (surf_width image)).
  pose proof (N2Z.is_nonneg (surf_height image)).
  pose proof (Z.div_mod (Rect.w rect) 2 ltac:(lia)).
  pose proof (Z.mod_pos_bound (Rect.w rect) 2 ltac:(lia)).
  pose proof (Z.div_mod (Rect.h rect) 2 ltac:(lia)).
  pose proof (Z.mod_pos_bound (Rect.h rect) 2 ltac:(lia)).
  unfold Rect.right, Rect.centerx, Rect.centery in Hr, Hx, Hy.
  assert (E : Enemy_move32 rect s = Enemy_move rect s).
  { unfold Enemy_move32, Enemy_move, Rect32.move_ip, Rect.move_ip.
    unwrap. reflexivity. }
  split; [exact E |]. rewrite E.
  unfold Rect32.right, Enemy_move, Rect.move_ip, Rect.right; simpl.
  unwrap. reflexivity.
Qed.

(** In every state the loop passes through, with sprite images no
    larger than the screen, the 32-bit arithmetic of the rectangles does
    not wrap: the player's next update, whatever keys are held, and the
    next move of every obstacle of the obstacle set, with the test on
    its right edge, are those of exact arithmetic. *)
Theorem rect_arithmetic_exact (player_image enemy_image : Surface) (g : Game) :
  Z.of_N (surf_width player_image) <= SCREEN_WIDTH ->
  Z.of_N (surf_height player_image) <= SCREEN_HEIGHT ->
  Z.of_N (surf_width enemy_image) <= SCREEN_WIDTH ->
  Z.of_N (surf_height enemy_image) <= SCREEN_HEIGHT ->
  reachable player_image enemy_image g ->
  (forall image rect keys,
     heap g !! player = Some (Player image rect) ->
     Rect32.move_fits (fst (displacement keys)) (snd (displacement keys)) rect /\
     Player_update32 keys rect = Player_update keys rect /\
     Rect32.on_screen (Player_update32 keys rect)) /\
  (forall i image rect s,
     i ∈ enemies g -> heap g !! i = Some (Enemy image rect s) ->
     Enemy_move32 rect s = Enemy_move rect s /\
     Rect32.right (Enemy_move32 rect s) = Rect.right (Enemy_move rect s)).
Proof.
  intros Pw Ph Ew Eh Hreach.
  assert (Hinv : player_on_screen player_image g /\
                 forall i, i ∈ enemies g ->
                   enemy_in_lane enemy_image (heap g !! i)).
  { induction Hreach as [r | g g' Hreach [IHp IHe] Hstep].
    - split.
      + exists (get_rect player_image).
        pose proof (N2Z.is_nonneg (surf_width player_image)).
        pose proof (N2Z.is_nonneg (surf_height player_image)).
        split; [apply lookup_singleton_eq |].
        split; [| split; reflexivity].
        unfold on_screen, get_rect, Rect.left, Rect.right, Rect.top,
          Rect.bottom; simpl.
        unfold SCREEN_WIDTH, SCREEN_HEIGHT in *. lia.
      + intros i Hi. apply elem_of_nil in Hi. contradiction.
    - pose proof (wf_reachable _ _ g Hreach) as Hg. split.
      + exact (player_on_screen_step player_image enemy_image g g' Pw Ph
                 Hg Hstep IHp).
      + exact (enemies_in_lane_step enemy_image g g' Hg Hstep IHe). }
  destruct Hinv as ((prect & Hp & Hon & Sw & Sh) & Hlane).
  split.
  - intros image rect keys Hrect. rewrite Hp in Hrect.
    injection Hrect as <- <-.
    pose proof (N2Z.is_nonneg (surf_width player_image)).
    pose proof (N2Z.is_nonneg (surf_height player_image)).
    assert (Hfit : Rect32.move_fits (fst (displacement keys))
                     (snd (displacement keys)) prect)
      by (apply on_screen_move_fits; [exact Hon | lia | lia]).
    split; [exact Hfit |].
    split; [exact (Player_update32_exact keys prect Hfit) |].
    rewrite (Player_update32_exact keys prect Hfit).
    apply on_screen32.
    apply (on_screen_Player_update keys prect); lia.
  - intros i image rect s Hi Hs.
    pose proof (Hlane i Hi) as Hl. rewrite Hs in Hl.
    assert (Himage : image = enemy_image)
      by (destruct Hl as (rc & s' & E & _); congruence).
    rewrite Himage in Hl.
    exact (in_lane_Enemy_move32 enemy_image rect s Ew Eh Hl).
Qed.

Lemma rect_arithmetic_exact_witness :
  Player_update32 (held false false false true) (Rect.mk 0 0 75 25)
    = Rect.mk 5 0 75 25 /\
  Enemy_move32 (Rect.mk 90 5 20 10) 20 = Rect.mk 70 5 20 10.
Proof.
  destruct (rect_arithmetic_exact player_75x25 enemy_20x10 before_hit
              ltac:(vm_compute; discriminate) ltac:(vm_compute; discriminate)
              ltac:(vm_compute; discriminate) ltac:(vm_compute; discriminate)
              before_hit_reachable) as (Hp & He).
  split.
  - destruct (Hp player_75x25 (Rect.mk 0 0 75 25)
                (held false false false true)
                ltac:(vm_compute; reflexivity)) as (_ & -> & _).
    vm_compute. reflexivity.
  - assert (E : enemies before_hit = [1%nat]) by (vm_compute; reflexivity).
    destruct (He 1%nat enemy_20x10 (Rect.mk 90 5 20 10) 20
                ltac:(rewrite E; apply list_elem_of_singleton; reflexivity)
                ltac:(vm_compute; reflexivity)) as (-> & _).
    vm_compute. reflexivity.
Defined.
